(** * Renta: the real-estate affordability calculator

    A shallow embedding of [script.js] (the full calculator) and of the
    second, simpler calculator, with the properties the specification
    states about them.

    Numbers.  The calculations are embedded twice.

    - On [num]: an exact rational, one of the two infinities, or NaN.
      Arithmetic on the finite part is exact and the two zeros are
      identified, as every comparison of the program does; a non-zero
      quotient by zero is the infinity carrying the sign of the dividend.
      Everything else follows ECMAScript: NaN is absorbing, every
      comparison with NaN is false, [0/0], [Infinity - Infinity] and
      [0 * Infinity] are NaN.  This is the arithmetic of the formulas, not
      of the machine: a property below that holds of the exact formulas
      only says so (in exact arithmetic).

    - On binary64 numbers (module [B64], the kernel's [PrimFloat]), for the
      loan formulas of both calculators: every operation rounds to nearest
      and overflows to an infinity, as in the running program.  The lemmas
      on [B64] show, at concrete inputs, where rounding and overflow part
      the program from the exact formulas.

    The loan term is read with [parseInt] in [script.js], so it is an
    integer or NaN ([jsint]); [Math.pow] is therefore only ever applied to
    an integral exponent, where the exact power is the rational power
    [Qpower]. *)

From stdpp Require Import base strings gmap.
From Stdlib Require Import Ascii String ZArith QArith Qpower Qfield Lqa Lia.
From Stdlib Require Import Bool List.
From Stdlib Require PrimFloat SpecFloat FloatOps.
Import (notations) PrimFloat.
Import ListNotations.

Local Open Scope Q_scope.

(* ================================================================== *)
(** * JavaScript numbers *)
(* ================================================================== *)

(** The exact model: [+], [-], [*], [/] and [Math.pow] on the finite part
    are those of the rationals, without the rounding, overflow and
    underflow of binary64 (module [B64] has the operations of the
    machine). *)
Module JS.

Inductive num : Type :=
| Fin (q : Q)
| PInf
| NInf
| NaN.

(** The result of [parseInt]: NaN or an integer. *)
Inductive jsint : Type :=
| IntNaN
| Int (z : Z).

Definition Qltb (a b : Q) : bool := negb (Qle_bool b a).

(** [isNaN(x)] *)
Definition isNaN (x : num) : bool :=
  match x with NaN => true | _ => false end.

Definition isNaNi (n : jsint) : bool :=
  match n with IntNaN => true | Int _ => false end.

(** Unary minus. *)
Definition neg (x : num) : num :=
  match x with
  | Fin q => Fin (- q)
  | PInf => NInf
  | NInf => PInf
  | NaN => NaN
  end.

Definition negi (n : jsint) : jsint :=
  match n with IntNaN => IntNaN | Int z => Int (- z) end.

(** [x + y] *)
Definition add (x y : num) : num :=
  match x, y with
  | NaN, _ | _, NaN => NaN
  | Fin a, Fin b => Fin (a + b)
  | PInf, NInf | NInf, PInf => NaN
  | PInf, _ | _, PInf => PInf
  | NInf, _ | _, NInf => NInf
  end.

(** [x - y] *)
Definition sub (x y : num) : num := add x (neg y).

(** The infinity whose sign is that of [a], NaN when [a] is zero. *)
Definition signed_inf (a : Q) : num :=
  if Qltb 0 a then PInf else if Qltb a 0 then NInf else NaN.

(** [x * y] *)
Definition mul (x y : num) : num :=
  match x, y with
  | NaN, _ | _, NaN => NaN
  | Fin a, Fin b => Fin (a * b)
  | Fin a, PInf | PInf, Fin a => signed_inf a
  | Fin a, NInf | NInf, Fin a => signed_inf (- a)
  | PInf, PInf | NInf, NInf => PInf
  | PInf, NInf | NInf, PInf => NInf
  end.

(** [x / y] *)
Definition div (x y : num) : num :=
  match x, y with
  | NaN, _ | _, NaN => NaN
  | Fin a, Fin b => if Qeq_bool b 0 then signed_inf a else Fin (a / b)
  | Fin _, (PInf | NInf) => Fin 0
  | PInf, Fin b => if Qltb b 0 then NInf else PInf
  | NInf, Fin b => if Qltb b 0 then PInf else NInf
  | (PInf | NInf), (PInf | NInf) => NaN
  end.

(** [Math.pow(x, n)] for an integral (or NaN) exponent. *)
Definition pow (x : num) (n : jsint) : num :=
  match n with
  | IntNaN => NaN
  | Int 0 => Fin 1
  | Int z =>
      match x with
      | NaN => NaN
      | Fin q => if Qeq_bool q 0 && (z <? 0)%Z then PInf else Fin (q ^ z)
      | PInf => if (0 <? z)%Z then PInf else Fin 0
      | NInf => if (0 <? z)%Z then (if Z.odd z then NInf else PInf) else Fin 0
      end
  end.

(** [x < y]: false as soon as one side is NaN. *)
Definition lt (x y : num) : bool :=
  match x, y with
  | NaN, _ | _, NaN => false
  | Fin a, Fin b => Qltb a b
  | _, NInf => false
  | PInf, _ => false
  | NInf, _ => true
  | Fin _, PInf => true
  end.

(** [x <= y] *)
Definition le (x y : num) : bool :=
  match x, y with
  | NaN, _ | _, NaN => false
  | Fin a, Fin b => Qle_bool a b
  | NInf, _ => true
  | _, PInf => true
  | _, NInf => false
  | PInf, _ => false
  end.

Definition gt (x y : num) : bool := lt y x.
Definition ge (x y : num) : bool := le y x.

(** [n <= 0] on the result of [parseInt]. *)
Definition lei0 (n : jsint) : bool :=
  match n with IntNaN => false | Int z => (z <=? 0)%Z end.

(** [Math.max(x, y)] *)
Definition max (x y : num) : num :=
  match x, y with
  | NaN, _ | _, NaN => NaN
  | _, _ => if lt x y then y else x
  end.

(** [x === y] on numbers: NaN is not equal to itself. *)
Definition seq (x y : num) : bool :=
  match x, y with
  | Fin a, Fin b => Qeq_bool a b
  | PInf, PInf | NInf, NInf => true
  | _, _ => false
  end.

(** An integer read as a number. *)
Definition toNum (n : jsint) : num :=
  match n with IntNaN => NaN | Int z => Fin (inject_Z z) end.

(** Mathematical equality of two numbers: [Qeq] on the finite part.
    (Unlike [===] it relates NaN to itself; it is the relation in which
    the properties below are stated, not an operation of the program.) *)
Definition num_eq (x y : num) : Prop :=
  match x, y with
  | Fin a, Fin b => a == b
  | PInf, PInf | NInf, NInf | NaN, NaN => True
  | _, _ => False
  end.

End JS.

Import JS(num(..), jsint(..)).

Declare Scope js_scope.
Delimit Scope js_scope with js.
Bind Scope js_scope with num.
Arguments JS.Fin q%_Q.
Infix "+" := JS.add : js_scope.
Infix "-" := JS.sub : js_scope.
Infix "*" := JS.mul : js_scope.
Infix "/" := JS.div : js_scope.
Infix "<" := JS.lt : js_scope.
Infix "<=" := JS.le : js_scope.
Infix ">" := JS.gt : js_scope.
Infix ">=" := JS.ge : js_scope.
Infix "=n=" := JS.num_eq (at level 70, no associativity).

(* ================================================================== *)
(** * The calculator of script.js *)
(* ================================================================== *)

(** What the eight input fields parse to.  The fields are
    [input type="number"] elements, whose value is the empty string or a
    finite decimal: [parseFloat] gives NaN ([None]) or a finite number,
    [parseInt(_, 10)] gives NaN or an integer. *)
Record RawInputs : Type := {
  f_prix : option Q;
  f_loyer : option Q;
  f_taux : option Q;
  f_duree : option Z;
  f_salaire : option Q;
  f_mensualiteActuel : option Q;
  f_endettementMax : option Q;
  f_loyerPrisEnCompte : option Q
}.

Definition ofFloat (p : option Q) : num :=
  match p with Some q => Fin q | None => NaN end.

Definition ofInt (p : option Z) : jsint :=
  match p with Some z => Int z | None => IntNaN end.

(** The constants of step 1 of [calculate]. *)
Record Locals : Type := {
  salaire : num;
  mensualiteActuel : num;
  prix : num;
  loyer : num;
  tauxAnnuel : num;
  nbMensualites : jsint;
  endettementMax : num;
  loyerPrisEnCompte : num
}.

Definition parseInputs (r : RawInputs) : Locals := {|
  salaire := ofFloat (f_salaire r);
  mensualiteActuel := ofFloat (f_mensualiteActuel r);
  prix := ofFloat (f_prix r);
  loyer := ofFloat (f_loyer r);
  tauxAnnuel := ofFloat (f_taux r);
  nbMensualites := ofInt (f_duree r);
  endettementMax := (ofFloat (f_endettementMax r) / Fin 100)%js;
  loyerPrisEnCompte := (ofFloat (f_loyerPrisEnCompte r) / Fin 100)%js
|}.

(** Step 2: the condition of the validation [if]. *)
Definition invalid (v : Locals) : bool :=
  JS.isNaN (salaire v) || JS.isNaN (mensualiteActuel v) || JS.isNaN (prix v)
  || JS.isNaN (loyer v) || JS.isNaN (tauxAnnuel v)
  || JS.isNaNi (nbMensualites v)
  || JS.isNaN (endettementMax v) || JS.isNaN (loyerPrisEnCompte v)
  || (salaire v < Fin 0)%js || (mensualiteActuel v < Fin 0)%js
  || (prix v <= Fin 0)%js || (loyer v < Fin 0)%js
  || (tauxAnnuel v <= Fin 0)%js || JS.lei0 (nbMensualites v).

Section Calculations.

Variable v : Locals.

Local Open Scope js_scope.

Definition tauxMensuel : num := tauxAnnuel v / Fin 100 / Fin 12.

(** A. Current situation *)
Definition endettementActuelTaux : num :=
  if salaire v > Fin 0 then mensualiteActuel v / salaire v else Fin 0.

Definition capaciteEndettement : num := endettementMax v * salaire v.

(** B. Project metrics *)
Definition facteurPMT : num :=
  (tauxMensuel * JS.pow (Fin 1 + tauxMensuel) (nbMensualites v))
  / (JS.pow (Fin 1 + tauxMensuel) (nbMensualites v) - Fin 1).

Definition mensualiteProjet : num := prix v * facteurPMT.

(** C. Rental-related calculations *)
Definition cashflow : num := loyer v - mensualiteProjet.

Definition endettementProjetSeulTaux : num :=
  if loyer v > Fin 0 then mensualiteProjet / loyer v else Fin 0.

(** The gross-yield formula, as a function of the purchase price. *)
Definition rendementBrutPour (p : num) : num :=
  if (p > Fin 0) && (loyer v > Fin 0)
  then ((loyer v * Fin 12) / p) * Fin 100
  else Fin 0.

Definition rendementBrut : num := rendementBrutPour (prix v).

Definition part1 : num :=
  (Fin 1 - JS.pow (Fin 1 + tauxMensuel) (JS.negi (nbMensualites v)))
  / tauxMensuel.

Definition rendementSouhaite : num :=
  (Fin 12 / (endettementMax v * part1)) * Fin 100.

Definition prixCibleRendement : num :=
  if (rendementSouhaite > Fin 0) && (loyer v > Fin 0)
  then (loyer v * Fin 12) / (rendementSouhaite / Fin 100)
  else Fin 0.

Definition reductionCible : num :=
  if prix v > Fin 0
  then ((prix v - prixCibleRendement) / prix v) * Fin 100
  else Fin 0.

Definition capaciteEmpruntLocative : num :=
  endettementMax v * (loyerPrisEnCompte v * loyer v).

(** D. Combined financial analysis *)
Definition capaciteMensualite : num :=
  capaciteEndettement + capaciteEmpruntLocative - mensualiteProjet
  - mensualiteActuel v.

(** E. Negotiation calculations *)
Definition denominateurDette : num := loyer v + salaire v.

Definition endettementTotalTaux : num :=
  if denominateurDette > Fin 0
  then (mensualiteProjet + mensualiteActuel v) / denominateurDette
  else Fin 0.

Definition mensualiteCible : num :=
  (endettementMax v * denominateurDette) - mensualiteActuel v.

Definition prixAcceptable : num :=
  if (mensualiteCible > Fin 0) && (facteurPMT > Fin 0)
  then mensualiteCible / facteurPMT
  else Fin 0.

Definition reductionMinimum : num :=
  if prix v > Fin 0
  then ((prix v - prixAcceptable) / prix v) * Fin 100
  else Fin 0.

(** The three applicability flags of step 5. *)
Definition isRentalProject : bool := loyer v > Fin 0.

(** [shouldShowTargetPrice] only exists inside [if (isRentalProject)]. *)
Definition shouldShowTargetPrice : bool := prix v >= prixCibleRendement.

Definition showTargetPrice : bool :=
  if isRentalProject then shouldShowTargetPrice else false.

Definition isNegotiationRequired : bool := prix v > prixAcceptable.

End Calculations.

(** ** The loan helper of the simpler calculator

    [calculateMensualiteProjet] is the nested helper of the second
    calculator.  Its term argument is a whole number of months here
    (the field is read with [parseFloat] there; a fractional term would
    take [Math.pow] outside the rationals). *)
Module Variant.

Definition calculateMensualiteProjet
    (capital tauxAnnuel : num) (dureeMois : jsint) : num :=
  if JS.seq tauxAnnuel (Fin 0) then (capital / JS.toNum dureeMois)%js
  else
    let tauxMensuel := (tauxAnnuel / Fin 1200)%js in
    (capital * tauxMensuel
     / (Fin 1 - JS.pow (Fin 1 + tauxMensuel) (JS.negi dureeMois)))%js.

(** The condition of its validation [if]. *)
Definition invalid (prix tauxAnnuel nbMensualites : num) : bool :=
  JS.isNaN prix || (prix <= Fin 0)%js
  || JS.isNaN tauxAnnuel || (tauxAnnuel <= Fin 0)%js
  || JS.isNaN nbMensualites || (nbMensualites <= Fin 0)%js.

End Variant.

(** The output bundle of one recomputation. *)
Record DerivedResult : Type := {
  r_mensualite : num;
  r_endettementActuel : num;
  r_endettementProjetSeul : num;
  r_endettementTotal : num;
  r_capacite : num;
  r_capaciteLocative : num;
  r_capaciteMensualite : num;
  r_cashflow : num;
  r_rendement : num;
  r_rendementSouhaite : num;
  r_prixCible : num;
  r_reductionCible : num;
  r_prixAcceptable : num;
  r_reductionMinimum : num;
  r_isRentalProject : bool;
  r_showTargetPrice : bool;
  r_isNegotiationRequired : bool
}.

Definition derive (v : Locals) : DerivedResult := {|
  r_mensualite := mensualiteProjet v;
  r_endettementActuel := endettementActuelTaux v;
  r_endettementProjetSeul := endettementProjetSeulTaux v;
  r_endettementTotal := endettementTotalTaux v;
  r_capacite := capaciteEndettement v;
  r_capaciteLocative := capaciteEmpruntLocative v;
  r_capaciteMensualite := capaciteMensualite v;
  r_cashflow := cashflow v;
  r_rendement := rendementBrut v;
  r_rendementSouhaite := rendementSouhaite v;
  r_prixCible := prixCibleRendement v;
  r_reductionCible := reductionCible v;
  r_prixAcceptable := prixAcceptable v;
  r_reductionMinimum := reductionMinimum v;
  r_isRentalProject := isRentalProject v;
  r_showTargetPrice := showTargetPrice v;
  r_isNegotiationRequired := isNegotiationRequired v
|}.

(** The numeric core of [calculate]: nothing is derived when the
    validation [if] takes its early [return]. *)
Definition engine (r : RawInputs) : option DerivedResult :=
  let v := parseInputs r in
  if invalid v then None else Some (derive v).

Definition Valid (r : RawInputs) : Prop := invalid (parseInputs r) = false.

(** ** The divisions executed by [calculate]

    Label and divisor of every [/] the function evaluates on the constants
    [v], in program order and following the branches taken (a division
    inside the untaken arm of a conditional is not executed). *)
Definition divisions (v : Locals) : list (string * num) :=
  (let site (c : bool) (name : string) (d : num) :=
     if c then [(name, d)] else [] in
   [("endettementMax", Fin 100); ("loyerPrisEnCompte", Fin 100);
    ("tauxMensuel/100", Fin 100); ("tauxMensuel/12", Fin 12)]
   ++ site (salaire v > Fin 0) "endettementActuelTaux" (salaire v)
   ++ [("facteurPMT",
        JS.pow (Fin 1 + tauxMensuel v) (nbMensualites v) - Fin 1)]
   ++ site (loyer v > Fin 0) "endettementProjetSeulTaux" (loyer v)
   ++ site ((prix v > Fin 0) && (loyer v > Fin 0)) "rendementBrut" (prix v)
   ++ [("part1", tauxMensuel v);
       ("rendementSouhaite", endettementMax v * part1 v)]
   ++ site ((rendementSouhaite v > Fin 0) && (loyer v > Fin 0))
        "rendementSouhaite/100" (Fin 100)
   ++ site ((rendementSouhaite v > Fin 0) && (loyer v > Fin 0))
        "prixCibleRendement" (rendementSouhaite v / Fin 100)
   ++ site (prix v > Fin 0) "reductionCible" (prix v)
   ++ site (denominateurDette v > Fin 0) "endettementTotalTaux"
        (denominateurDette v)
   ++ site ((mensualiteCible v > Fin 0) && (facteurPMT v > Fin 0))
        "prixAcceptable" (facteurPMT v)
   ++ site (prix v > Fin 0) "reductionMinimum" (prix v))%js.

Definition isZero (x : num) : bool :=
  match x with Fin q => Qeq_bool q 0 | _ => false end.

(** Every executed division has a non-zero divisor. *)
Definition guarded (v : Locals) : bool :=
  forallb (fun d => negb (isZero (snd d))) (divisions v).

(* ================================================================== *)
(** * The page: input fields, outputs and the persistent store *)
(* ================================================================== *)

(** What the program takes from its host: parsing of a field's text and
    the two number formatters. *)
Class Host : Type := {
  parseFloat : string -> option Q;
  parseInt10 : string -> option Z;
  (** [new Intl.NumberFormat('fr-FR', ...).format(x)] *)
  currencyFormat : num -> string;
  (** [x.toFixed(d)] *)
  toFixed : num -> nat -> string
}.

Record World : Type := {
  inputValue : gmap string string;    (** [.value] of each input, by id *)
  localStorage : gmap string string;
  setItemLog : list (string * string);
                                  (** the calls of [setItem], oldest first *)
  errorDisplay : string;
  textContent : gmap string string;   (** of [outputElements], by key *)
  className : gmap string string;
  display : gmap string string        (** of [conditionalContainers] *)
}.

Definition inputIds : list string :=
  ["prix"; "loyer"; "taux"; "duree"; "salaire"; "mensualiteActuel";
   "endettementMax"; "loyerPrisEnCompte"]%string.

Definition outputKeys : list string :=
  ["endettementActuel"; "endettementProjetSeul"; "endettementTotal";
   "capacite"; "capaciteLocative"; "mensualite"; "capaciteMensualite";
   "cashflow"; "rendement"; "rendementSouhaite"; "prixCible";
   "reductionCible"; "prixAcceptable"; "reductionMinimum"]%string.

Definition containerKeys : list string :=
  ["locatifResults"; "locatifResults2"; "locatifResults3";
   "locatifResults4"; "reductionResults"; "reductionResults2";
   "itemPrixCible"; "itemReductionCible"]%string.

(** [document.getElementById(id).value]; the eight inputs exist. *)
Definition valueOf (w : World) (id : string) : string :=
  default ""%string (inputValue w !! id).

Definition setValue (id s : string) (w : World) : World :=
  {| inputValue := <[id := s]> (inputValue w);
     localStorage := localStorage w; setItemLog := setItemLog w;
     errorDisplay := errorDisplay w; textContent := textContent w;
     className := className w; display := display w |}.

(** [localStorage.setItem(id, s)] *)
Definition setItem (id s : string) (w : World) : World :=
  {| inputValue := inputValue w;
     localStorage := <[id := s]> (localStorage w);
     setItemLog := setItemLog w ++ [(id, s)];
     errorDisplay := errorDisplay w; textContent := textContent w;
     className := className w; display := display w |}.

Definition setError (s : string) (w : World) : World :=
  {| inputValue := inputValue w; localStorage := localStorage w;
     setItemLog := setItemLog w; errorDisplay := s;
     textContent := textContent w; className := className w;
     display := display w |}.

Definition setText (key s : string) (w : World) : World :=
  {| inputValue := inputValue w; localStorage := localStorage w;
     setItemLog := setItemLog w; errorDisplay := errorDisplay w;
     textContent := <[key := s]> (textContent w);
     className := className w; display := display w |}.

Definition setClass (key s : string) (w : World) : World :=
  {| inputValue := inputValue w; localStorage := localStorage w;
     setItemLog := setItemLog w; errorDisplay := errorDisplay w;
     textContent := textContent w;
     className := <[key := s]> (className w); display := display w |}.

Definition setDisplay (key s : string) (w : World) : World :=
  {| inputValue := inputValue w; localStorage := localStorage w;
     setItemLog := setItemLog w; errorDisplay := errorDisplay w;
     textContent := textContent w; className := className w;
     display := <[key := s]> (display w) |}.

(** [inputIds.forEach(id => localStorage.setItem(id, value of id))] *)
Definition saveData (w : World) : World :=
  foldl (fun w id => setItem id (valueOf w id) w) w inputIds.

Definition loadData (w : World) : World :=
  foldl (fun w id =>
           match localStorage w !! id with
           | Some savedValue => setValue id savedValue w
           | None => w
           end) w inputIds.

(** [s.replace('.', ',')]: the first dot only. *)
Fixpoint replaceDot (s : string) : string :=
  match s with
  | EmptyString => EmptyString
  | String c rest =>
      if Ascii.eqb c "."%char then String ","%char rest
      else String c (replaceDot rest)
  end.

Section Page.

Context `{Host}.

Definition readInputs (w : World) : RawInputs := {|
  f_prix := parseFloat (valueOf w "prix");
  f_loyer := parseFloat (valueOf w "loyer");
  f_taux := parseFloat (valueOf w "taux");
  f_duree := parseInt10 (valueOf w "duree");
  f_salaire := parseFloat (valueOf w "salaire");
  f_mensualiteActuel := parseFloat (valueOf w "mensualiteActuel");
  f_endettementMax := parseFloat (valueOf w "endettementMax");
  f_loyerPrisEnCompte := parseFloat (valueOf w "loyerPrisEnCompte")
|}.

(** [`${x.toFixed(d).replace('.', ',')} %`] *)
Definition percent (x : num) (d : nat) : string :=
  replaceDot (toFixed x d) +:+ " %".

Definition signClass (x : num) : string :=
  "value " +:+
  (if (x >= Fin 0)%js then "cashflow-positive" else "cashflow-negative").

Definition blockIf (c : bool) : string := if c then "block" else "none".
Definition flexIf (c : bool) : string := if c then "flex" else "none".

(** The failure arm of the validation [if]. *)
Definition showBlank (w : World) : World :=
  let w := setError "block" w in
  let w := foldl (fun w key => setText key "..." w) w outputKeys in
  foldl (fun w key => setDisplay key "none" w) w containerKeys.

(** Step 5.B, inside [if (isRentalProject)]. *)
Definition showRental (v : Locals) (w : World) : World :=
  let w := setText "cashflow" (currencyFormat (cashflow v)) w in
  let w := setText "endettementProjetSeul"
             (percent (endettementProjetSeulTaux v * Fin 100) 1) w in
  let w := setText "rendement" (percent (rendementBrut v) 2) w in
  let w := setText "rendementSouhaite" (percent (rendementSouhaite v) 2) w in
  let w := setText "capaciteLocative"
             (currencyFormat (capaciteEmpruntLocative v)) w in
  let w := setClass "cashflow" (signClass (cashflow v)) w in
  let w := setDisplay "itemPrixCible" (flexIf (shouldShowTargetPrice v)) w in
  let w := setDisplay "itemReductionCible"
             (flexIf (shouldShowTargetPrice v)) w in
  if shouldShowTargetPrice v then
    let w := setText "prixCible" (currencyFormat (prixCibleRendement v)) w in
    setText "reductionCible"
      (percent (JS.max (Fin 0) (reductionCible v)) 1) w
  else w.

(** Step 5.C, inside [if (isNegotiationRequired)]. *)
Definition showNegotiation (v : Locals) (w : World) : World :=
  let w := setText "endettementTotal"
             (percent (endettementTotalTaux v * Fin 100) 1) w in
  let w := setText "prixAcceptable" (currencyFormat (prixAcceptable v)) w in
  setText "reductionMinimum"
    (percent (JS.max (Fin 0) (reductionMinimum v)) 1) w.

Definition calculate (w : World) : World :=
  let v := parseInputs (readInputs w) in
  if invalid v then showBlank w
  else
    let w := setError "none" w in
    let w := setText "mensualite" (currencyFormat (mensualiteProjet v)) w in
    let w := setText "endettementActuel"
               (percent (endettementActuelTaux v * Fin 100) 1) w in
    let w := setText "capacite"
               (currencyFormat (JS.max (Fin 0) (capaciteEndettement v))) w in
    let w := setText "capaciteMensualite"
               (currencyFormat (capaciteMensualite v)) w in
    let w := setClass "capaciteMensualite"
               (signClass (capaciteMensualite v)) w in
    let w := setDisplay "locatifResults" (blockIf (isRentalProject v)) w in
    let w := setDisplay "locatifResults2" (blockIf (isRentalProject v)) w in
    let w := setDisplay "locatifResults3" (blockIf (isRentalProject v)) w in
    let w := setDisplay "locatifResults4" (blockIf (isRentalProject v)) w in
    let w := if isRentalProject v then showRental v w else w in
    let w := setDisplay "reductionResults"
               (blockIf (isNegotiationRequired v)) w in
    let w := setDisplay "reductionResults2"
               (blockIf (isNegotiationRequired v)) w in
    let w := if isNegotiationRequired v then showNegotiation v w else w in
    saveData w.

(** Initialization: [loadData(); calculate();] *)
Definition initialize (w : World) : World := calculate (loadData w).

End Page.

(* ================================================================== *)
(** * The simpler calculator *)
(* ================================================================== *)

(** The rest of the second calculator, around the helper
    [Variant.calculateMensualiteProjet].  As for the helper, the term is a
    whole number of months or NaN; the other fields are any number
    [parseFloat] can return. *)
Module Simple.

(** [x || 0] on a number: 0 when [x] is NaN or zero, [x] otherwise. *)
Definition orZero (x : num) : num :=
  match x with
  | NaN => Fin 0
  | Fin q => if Qeq_bool q 0 then Fin 0 else Fin q
  | PInf => PInf
  | NInf => NInf
  end.

Definition calculateCapaciteEmprunt
    (mensualiteMax mensualitesActuelles loyer tauxAnnuel : num)
    (dureeMois : jsint) : num :=
  let tauxMensuel := (tauxAnnuel / Fin 1200)%js in
  let mensualiteEmpruntMax :=
    JS.max (Fin 0)
      (mensualiteMax - mensualitesActuelles + (loyer * Fin 0.7))%js in
  (mensualiteEmpruntMax / tauxMensuel
   * (Fin 1 - JS.pow (Fin 1 + tauxMensuel) (JS.negi dureeMois)))%js.

(** The constants of step 1 of its [calculate]. *)
Record Locals : Type := {
  prix : num;
  loyer : num;
  tauxAnnuel : num;
  nbMensualites : jsint;
  salaireActuel : num;
  mensualitesActuelles : num
}.

Definition invalid (v : Locals) : bool :=
  Variant.invalid (prix v) (tauxAnnuel v) (JS.toNum (nbMensualites v)).

Section Calculations.

Variable v : Locals.

Local Open Scope js_scope.

Definition mensualiteProjet : num :=
  Variant.calculateMensualiteProjet (prix v) (tauxAnnuel v) (nbMensualites v).

Definition tauxEndettementAcceptable : num := Fin 0.35.

Definition mensualiteMax : num :=
  orZero (salaireActuel v) * tauxEndettementAcceptable.

Definition mensualiteRestante : num :=
  JS.max (Fin 0) (mensualiteMax - orZero (mensualitesActuelles v)).

Definition endettementPropreTaux : num :=
  mensualiteProjet / JS.max (Fin 1) (orZero (salaireActuel v)).

Definition isRentalProject : bool := loyer v > Fin 0.

Definition capaciteEmpruntLocative : num :=
  if isRentalProject
  then calculateCapaciteEmprunt mensualiteMax (mensualitesActuelles v)
         (loyer v) (tauxAnnuel v) (nbMensualites v)
  else Fin 0.

Definition cashflowBrut : num :=
  if isRentalProject then loyer v - mensualiteProjet else Fin 0.

Definition rendementBrut : num :=
  if isRentalProject then (loyer v * Fin 12) / prix v else Fin 0.

Definition prixCible : num :=
  if isRentalProject then (loyer v * Fin 12) / Fin 0.05 else Fin 0.

Definition isSituationDataValid : bool :=
  negb (JS.isNaN (salaireActuel v))
  && negb (JS.isNaN (mensualitesActuelles v)).

Definition endettementTotalTaux : num :=
  (mensualiteProjet + mensualitesActuelles v) / salaireActuel v.

End Calculations.

(** What this calculator takes from its host. *)
Class Host : Type := {
  parseFloat : string -> num;
  parseTerm : string -> jsint;
  currencyFormat : num -> string;
  toFixed : num -> nat -> string
}.

Definition outputKeys : list string :=
  ["endettementPropre"; "endettementTotal"; "capaciteEmpruntPropre";
   "capaciteEmpruntLocative"; "mensualiteProjet"; "capaciteMensualite";
   "cashflowBrut"; "rendementBrut"; "rendementCible"; "prixCible"]%string.

Definition containerKeys : list string :=
  ["locatifResults"; "locatifResults2"; "locatifResults3";
   "locatifResults4"; "situationResults"]%string.

(** How a call ends: by returning, or by an exception that leaves the
    function. *)
Inductive completion : Type :=
| Returned
| Thrown (error : string).

Section Page.

Context `{Host}.

Definition readLocals (w : World) : Locals := {|
  prix := parseFloat (valueOf w "prix");
  loyer := parseFloat (valueOf w "loyer");
  tauxAnnuel := parseFloat (valueOf w "tauxAnnuel");
  nbMensualites := parseTerm (valueOf w "nbMensualites");
  salaireActuel := parseFloat (valueOf w "salaireActuel");
  mensualitesActuelles := parseFloat (valueOf w "mensualitesActuelles")
|}.

Definition percent (x : num) (d : nat) : string :=
  replaceDot (toFixed x d) +:+ " %".

Definition blockIf (c : bool) : string := if c then "block" else "none".

(** The failure arm of the validation [if]. *)
Definition showBlank (w : World) : World :=
  let w := setError "block" w in
  let w := foldl (fun w key => setText key "..." w) w outputKeys in
  let w := foldl (fun w key => setDisplay key "none" w) w containerKeys in
  setDisplay "situationResults" "block" w.

(** Steps C and D. *)
Definition showSituation (v : Locals) (w : World) : World :=
  let w := setDisplay "locatifResults" (blockIf (isRentalProject v)) w in
  let w := setDisplay "locatifResults2" (blockIf (isRentalProject v)) w in
  let w := setDisplay "locatifResults3" (blockIf (isRentalProject v)) w in
  let w := setDisplay "locatifResults4" (blockIf (isRentalProject v)) w in
  let w := setDisplay "situationResults" "block" w in
  if isSituationDataValid v then
    let w := setText "endettementPropre"
               (percent (endettementPropreTaux v * Fin 100) 1) w in
    setText "endettementTotal"
      (percent (endettementTotalTaux v * Fin 100) 1) w
  else
    let w := setText "endettementPropre" "..." w in
    setText "endettementTotal" "..." w.

(** Step E, up to the statement that reads [rendementObjectif]. *)
Definition showResults (v : Locals) (w : World) : World :=
  let w := setText "capaciteEmpruntPropre"
             (currencyFormat (mensualiteRestante v)) w in
  let w := setText "capaciteEmpruntLocative"
             (currencyFormat (capaciteEmpruntLocative v)) w in
  let w := setText "mensualiteProjet"
             (currencyFormat (mensualiteProjet v)) w in
  let w := setText "capaciteMensualite"
             (currencyFormat (mensualiteRestante v - mensualiteProjet v)) w in
  let w := setText "cashflowBrut" (currencyFormat (cashflowBrut v)) w in
  setText "rendementBrut" (percent (rendementBrut v * Fin 100) 1) w.

(** [rendementObjectif] is a [const] of the block of
    [if (isRentalProject)]; the statement that sets the text of
    [rendementCible] reads it outside that block, where no such binding
    exists (the file defines no global of that name): evaluating it
    throws, and the statement after it (the text of [prixCible]) is never
    reached. *)
Definition calculate (w : World) : World * completion :=
  let v := readLocals w in
  if invalid v then (showBlank w, Returned)
  else
    let w := setError "none" w in
    let w := showSituation v w in
    let w := showResults v w in
    (w, Thrown "ReferenceError: rendementObjectif is not defined").

End Page.

End Simple.

(* ================================================================== *)
(** * debounce *)
(* ================================================================== *)

(** [debounce(func, delay)] against a host with a clock and a table of
    pending timers.  [A] is what a call passes on ([this] and [args]). *)
Module Debounce.

Section Debounce.

Local Open Scope nat_scope.

Variable A : Type.

Record state : Type := {
  now : nat;                      (** the clock, in milliseconds *)
  timers : gmap nat (nat * A);    (** pending timers: due time, arguments *)
  nextId : nat;                   (** the id the next [setTimeout] returns *)
  timeoutId : option nat;         (** the variable of the closure *)
  calls : list A                  (** the calls of [func], oldest first *)
}.

(** [debounce(func, delay)] has run: no timer, [timeoutId] undefined. *)
Definition init : state :=
  {| now := 0; timers := ∅; nextId := 1; timeoutId := None; calls := [] |}.

(** [clearTimeout(id)]: nothing happens on [undefined] or on an id that is
    no longer pending. *)
Definition clearTimeout (id : option nat) (st : state) : state :=
  match id with
  | Some i =>
      {| now := now st; timers := delete i (timers st); nextId := nextId st;
         timeoutId := timeoutId st; calls := calls st |}
  | None => st
  end.

(** [setTimeout(() => func.apply(this, args), delay)] and its result. *)
Definition setTimeout (args : A) (delay : nat) (st : state) : nat * state :=
  (nextId st,
   {| now := now st;
      timers := <[nextId st := (now st + delay, args)]> (timers st);
      nextId := S (nextId st); timeoutId := timeoutId st;
      calls := calls st |}).

(** One call of the function [debounce] returned. *)
Definition debounced (delay : nat) (args : A) (st : state) : state :=
  let st := clearTimeout (timeoutId st) st in
  let (id, st) := setTimeout args delay st in
  {| now := now st; timers := timers st; nextId := nextId st;
     timeoutId := Some id; calls := calls st |}.

(** The host lets [d] milliseconds pass. *)
Definition tick (d : nat) (st : state) : state :=
  {| now := now st + d; timers := timers st; nextId := nextId st;
     timeoutId := timeoutId st; calls := calls st |}.

(** The host runs the callback of timer [id], if it is pending and due. *)
Definition fire (id : nat) (st : state) : state :=
  match timers st !! id with
  | Some (due, args) =>
      if due <=? now st then
        {| now := now st; timers := delete id (timers st);
           nextId := nextId st; timeoutId := timeoutId st;
           calls := calls st ++ [args] |}
      else st
  | None => st
  end.

Inductive event : Type :=
| Call (args : A)
| Tick (d : nat)
| Fire (id : nat).

Definition step (delay : nat) (st : state) (e : event) : state :=
  match e with
  | Call args => debounced delay args st
  | Tick d => tick d st
  | Fire id => fire id st
  end.

Definition run (delay : nat) (es : list event) : state :=
  foldl (step delay) init es.

Definition isCall (e : event) : bool :=
  match e with Call _ => true | _ => false end.

(** The time that passes during [es]. *)
Definition elapsed (es : list event) : nat :=
  foldr (fun e acc => match e with Tick d => d + acc | _ => acc end) 0 es.

(** Only the timer named by [timeoutId] can be pending. *)
Definition onlyLatestPending (st : state) : Prop :=
  forall id x, timers st !! id = Some x -> timeoutId st = Some id.

End Debounce.

End Debounce.

(* ================================================================== *)
(** * The loan computation on binary64 numbers *)
(* ================================================================== *)

(** The validation and the loan formulas of [script.js], and the loan
    helper of the simpler calculator, on the numbers the program really
    computes with: IEEE 754 binary64, here the kernel's primitive [float],
    whose [+], [-], [*], [/] and comparisons are those of the machine
    (round to nearest, ties to even; overflow to an infinity; every
    comparison with NaN false).

    [Math.pow] is implementation-approximated in ECMAScript.  It is taken
    correctly rounded: the exact power of the base, rounded once.  That
    is what every engine returns where the power is a binary64 number or
    exceeds them all, the only cases the lemmas on this module use. *)
Module B64.

Local Open Scope float_scope.

(** [m * 2^e], rounded to the nearest binary64 number. *)
Definition round (m e : Z) : PrimFloat.float :=
  FloatOps.SF2Prim
    (SpecFloat.binary_normalize FloatOps.prec FloatOps.emax m e false).

(** An integer read as a number. *)
Definition toNum (n : jsint) : PrimFloat.float :=
  match n with IntNaN => PrimFloat.nan | Int z => round z 0 end.

Definition signed (negative : bool) (x : PrimFloat.float) : PrimFloat.float :=
  if negative then - x else x.

(** [m * 2^e] written with an odd [m]. *)
Fixpoint oddPart (m : positive) (e : Z) : positive * Z :=
  match m with
  | xO p => oddPart p (e + 1)
  | _ => (m, e)
  end.

(** [Math.pow(x, n)] for an integral (or NaN) exponent: the special cases
    of ECMAScript, then the exact power [(m * 2^e)^n] of the finite base
    [m * 2^e], rounded once (for a negative exponent, the correctly
    rounded quotient of 1 by the exact power). *)
Definition pow (x : PrimFloat.float) (n : jsint) : PrimFloat.float :=
  match n with
  | IntNaN => PrimFloat.nan
  | Int 0 => 1
  | Int z =>
      let odd := Z.odd z in
      match FloatOps.Prim2SF x with
      | SpecFloat.S754_nan => PrimFloat.nan
      | SpecFloat.S754_zero s =>
          signed (s && odd) (if (0 <? z)%Z then 0 else PrimFloat.infinity)
      | SpecFloat.S754_infinity s =>
          signed (s && odd) (if (0 <? z)%Z then PrimFloat.infinity else 0)
      | SpecFloat.S754_finite s m e =>
          let (m, e) := oddPart m e in
          let mk := (Zpos m ^ Z.abs z)%Z in
          let ek := (e * Z.abs z)%Z in
          signed (s && odd)
            (if (0 <? z)%Z then round mk ek
             else
               FloatOps.SF2Prim
                 (SpecFloat.SFdiv FloatOps.prec FloatOps.emax
                    (SpecFloat.S754_finite false 1 0)
                    (SpecFloat.S754_finite false (Z.to_pos mk) ek)))
      end
  end.

(** [isNaN(x)] *)
Definition isNaN (x : PrimFloat.float) : bool := PrimFloat.is_nan x.

(** The constants of step 1 of [calculate] in [script.js]. *)
Record Locals : Type := {
  salaire : PrimFloat.float;
  mensualiteActuel : PrimFloat.float;
  prix : PrimFloat.float;
  loyer : PrimFloat.float;
  tauxAnnuel : PrimFloat.float;
  nbMensualites : jsint;
  endettementMax : PrimFloat.float;
  loyerPrisEnCompte : PrimFloat.float
}.

(** Step 1 on the numbers the eight fields parse to (the term is never
    NaN here). *)
Definition fields (prix loyer taux : PrimFloat.float) (duree : Z)
    (salaire mensualiteActuel endettementMax loyerPrisEnCompte
     : PrimFloat.float) : Locals := {|
  salaire := salaire;
  mensualiteActuel := mensualiteActuel;
  prix := prix;
  loyer := loyer;
  tauxAnnuel := taux;
  nbMensualites := Int duree;
  endettementMax := endettementMax / 100;
  loyerPrisEnCompte := loyerPrisEnCompte / 100
|}.

(** Step 2: the condition of the validation [if]. *)
Definition invalid (v : Locals) : bool :=
  isNaN (salaire v) || isNaN (mensualiteActuel v) || isNaN (prix v)
  || isNaN (loyer v) || isNaN (tauxAnnuel v)
  || JS.isNaNi (nbMensualites v)
  || isNaN (endettementMax v) || isNaN (loyerPrisEnCompte v)
  || (salaire v <? 0) || (mensualiteActuel v <? 0)
  || (prix v <=? 0) || (loyer v <? 0)
  || (tauxAnnuel v <=? 0) || JS.lei0 (nbMensualites v).

Definition tauxMensuel (v : Locals) : PrimFloat.float :=
  tauxAnnuel v / 100 / 12.

Definition facteurPMT (v : Locals) : PrimFloat.float :=
  (tauxMensuel v * pow (1 + tauxMensuel v) (nbMensualites v))
  / (pow (1 + tauxMensuel v) (nbMensualites v) - 1).

Definition mensualiteProjet (v : Locals) : PrimFloat.float :=
  prix v * facteurPMT v.

Definition cashflow (v : Locals) : PrimFloat.float :=
  loyer v - mensualiteProjet v.

(** The loan helper of the simpler calculator. *)
Definition calculateMensualiteProjet
    (capital tauxAnnuel : PrimFloat.float) (dureeMois : jsint)
    : PrimFloat.float :=
  if tauxAnnuel =? 0 then capital / toNum dureeMois
  else
    let tauxMensuel := tauxAnnuel / 1200 in
    capital * tauxMensuel / (1 - pow (1 + tauxMensuel) (JS.negi dureeMois)).

End B64.

(* ================================================================== *)
(** * Reference definitions and sample inputs *)
(* ================================================================== *)

(** Validity as the specification words it: every field parses, price,
    rate and term are strictly positive, rent, income and current debt
    are non-negative; the two ratios only have to parse. *)
Definition SpecValid (r : RawInputs) : Prop :=
  exists p l t n s m e k,
    r = {| f_prix := Some p; f_loyer := Some l; f_taux := Some t;
           f_duree := Some n; f_salaire := Some s;
           f_mensualiteActuel := Some m; f_endettementMax := Some e;
           f_loyerPrisEnCompte := Some k |}
    /\ 0 < p /\ 0 < t /\ (0 < n)%Z /\ 0 <= l /\ 0 <= s /\ 0 <= m.

(** The closed-form annuity payment of the specification:
    [principal * monthlyRate / (1 - (1 + monthlyRate)^(-termMonths))]
    with [monthlyRate = annualRatePercent / 1200]. *)
Definition annuity (principal annualRatePercent : Q) (termMonths : Z) : Q :=
  let monthlyRate := annualRatePercent / 1200 in
  principal * monthlyRate / (1 - (1 + monthlyRate) ^ (- termMonths)).

(** The constants of step 1 when every field parses. *)
Definition finiteLocals (p l t : Q) (n : Z) (s m e k : Q) : Locals := {|
  salaire := Fin s;
  mensualiteActuel := Fin m;
  prix := Fin p;
  loyer := Fin l;
  tauxAnnuel := Fin t;
  nbMensualites := Int n;
  endettementMax := Fin (e / 100);
  loyerPrisEnCompte := Fin (k / 100)
|}.

(** The monthly rate and the compounding factor, as the code forms them. *)
Definition rate (t : Q) : Q := t / 100 / 12.
Definition growth (t : Q) (n : Z) : Q := (1 + rate t) ^ n.

(** The value of [part1], the present-value-of-annuity factor. *)
Definition annuityFactor (t : Q) (n : Z) : Q :=
  (1 + - (1 + rate t) ^ (- n)) / rate t.

(** The scenario of the specification: price 200000, rent 800, 3.5 % over
    240 months, income 3000, current debt 200, ratios 35 % and 70 %. *)
Definition scenario : RawInputs := {|
  f_prix := Some 200000; f_loyer := Some 800; f_taux := Some 3.5;
  f_duree := Some 240%Z; f_salaire := Some 3000;
  f_mensualiteActuel := Some 200; f_endettementMax := Some 35;
  f_loyerPrisEnCompte := Some 70 |}.

(** The scenario of the specification with its term cut to 120 months. *)
Definition scenario120 : RawInputs := {|
  f_prix := Some 200000; f_loyer := Some 800; f_taux := Some 3.5;
  f_duree := Some 120%Z; f_salaire := Some 3000;
  f_mensualiteActuel := Some 200; f_endettementMax := Some 35;
  f_loyerPrisEnCompte := Some 70 |}.

(** Both visibility boundaries at once: 100 % a month over one month, so
    that the payment factor is 2, the acceptable price [50 / 2] and the
    target price [1200 / 48]. *)
Definition boundary : RawInputs := {|
  f_prix := Some 25; f_loyer := Some 100; f_taux := Some 1200;
  f_duree := Some 1%Z; f_salaire := Some 0;
  f_mensualiteActuel := Some 0; f_endettementMax := Some 50;
  f_loyerPrisEnCompte := Some 70 |}.

(** The scenario with 2000 of current monthly debt. *)
Definition overindebted : RawInputs := {|
  f_prix := Some 200000; f_loyer := Some 800; f_taux := Some 3.5;
  f_duree := Some 240%Z; f_salaire := Some 3000;
  f_mensualiteActuel := Some 2000; f_endettementMax := Some 35;
  f_loyerPrisEnCompte := Some 70 |}.

(** A one-year loan of 12000 at 12 % without rent. *)
Definition rentFree : RawInputs := {|
  f_prix := Some 12000; f_loyer := Some 0; f_taux := Some 12;
  f_duree := Some 12%Z; f_salaire := Some 3000;
  f_mensualiteActuel := Some 200; f_endettementMax := Some 35;
  f_loyerPrisEnCompte := Some 70 |}.

(** A one-year loan of 12000 at 12 % with a rent of 800 and an acceptable
    debt ratio of 0 %. *)
Definition zeroRatio : RawInputs := {|
  f_prix := Some 12000; f_loyer := Some 800; f_taux := Some 12;
  f_duree := Some 12%Z; f_salaire := Some 3000;
  f_mensualiteActuel := Some 200; f_endettementMax := Some 0;
  f_loyerPrisEnCompte := Some 70 |}.

(** Binary64 inputs at 1200 % a year, that is 100 % a month, so that the
    compounding factor is a power of two: a loan of 25 over 1024 months,
    and a loan of 200000 over a given number of months. *)
Definition millennium : B64.Locals :=
  B64.fields 25 100 1200 1024 3000 200 35 70.

Definition doubling (months : Z) : B64.Locals :=
  B64.fields 200000 800 1200 months 3000 200 35 70.

(** A one-year loan of 12000 at the smallest positive binary64 rate,
    [2^-1074] (the number that [5e-324] parses to). *)
Definition vanishingRate : B64.Locals :=
  B64.fields 12000 800 (B64.round 1 (-1074)) 12 3000 200 35 70.

(** Two worlds with the same input texts and the same store. *)
Definition sameStore (a b : World) : Prop :=
  inputValue a = inputValue b
  /\ localStorage a = localStorage b
  /\ setItemLog a = setItemLog b.

(** A host that reads unsigned decimal integers and prints nothing, and a
    page filled with the one-year loan. *)
Fixpoint readDigits (s : string) (acc : Z) : option Z :=
  match s with
  | EmptyString => Some acc
  | String c rest =>
      let d := Z.of_nat (nat_of_ascii c) - 48 in
      if (0 <=? d) && (d <=? 9) then readDigits rest (10 * acc + d) else None
  end%Z.

Definition readNatural (s : string) : option Z :=
  match s with EmptyString => None | _ => readDigits s 0 end.

Definition sampleHost : Host := {|
  parseFloat := fun s => option_map inject_Z (readNatural s);
  parseInt10 := readNatural;
  currencyFormat := fun _ => EmptyString;
  toFixed := fun _ _ => EmptyString
|}.

Definition samplePage (prixText : string) : World := {|
  inputValue :=
    list_to_map
      [("prix", prixText); ("loyer", "800"); ("taux", "12"); ("duree", "12");
       ("salaire", "3000"); ("mensualiteActuel", "200");
       ("endettementMax", "35"); ("loyerPrisEnCompte", "70")]%string;
  localStorage := ∅;
  setItemLog := [];
  errorDisplay := "none";
  textContent := ∅;
  className := ∅;
  display := ∅
|}.

(** [Number.isFinite(x)]: neither NaN nor an infinity. *)
Definition isFinite (x : num) : bool :=
  match x with Fin _ => true | _ => false end.

(** The numbers of a [DerivedResult] other than the desired yield. *)
Definition numbersButDesiredYield (d : DerivedResult) : list num :=
  [r_mensualite d; r_endettementActuel d; r_endettementProjetSeul d;
   r_endettementTotal d; r_capacite d; r_capaciteLocative d;
   r_capaciteMensualite d; r_cashflow d; r_rendement d; r_prixCible d;
   r_reductionCible d; r_prixAcceptable d; r_reductionMinimum d].

(** ** What one recomputation writes on the page

    The writes of [calculate] on a valid input, in program order, as lists
    of (key, value); they are compared with [calculate] below. *)
Definition applyUpdates
    (us : list (string * string)) (m : gmap string string)
    : gmap string string :=
  foldl (fun m u => <[fst u := snd u]> m) m us.

(** The value of the last write to [i] in [us], if any. *)
Fixpoint lastWrite (i : string) (us : list (string * string))
    : option string :=
  match us with
  | [] => None
  | u :: rest =>
      match lastWrite i rest with
      | Some y => Some y
      | None => if decide (fst u = i) then Some (snd u) else None
      end
  end.

(** The outputs written only inside [if (isRentalProject)], and only
    inside [if (isNegotiationRequired)]. *)
Definition rentalOutputKeys : list string :=
  ["cashflow"; "endettementProjetSeul"; "rendement"; "rendementSouhaite";
   "capaciteLocative"; "prixCible"; "reductionCible"]%string.

Definition negotiationOutputKeys : list string :=
  ["endettementTotal"; "prixAcceptable"; "reductionMinimum"]%string.

Definition rentalContainerKeys : list string :=
  ["locatifResults"; "locatifResults2"; "locatifResults3";
   "locatifResults4"]%string.

Definition negotiationContainerKeys : list string :=
  ["reductionResults"; "reductionResults2"]%string.

Section PageWrites.

Context `{Host}.

Variable v : Locals.

Definition textUpdates : list (string * string) :=
  [("mensualite", currencyFormat (mensualiteProjet v));
   ("endettementActuel", percent (endettementActuelTaux v * Fin 100) 1);
   ("capacite", currencyFormat (JS.max (Fin 0) (capaciteEndettement v)));
   ("capaciteMensualite", currencyFormat (capaciteMensualite v))]%string
  ++ (if isRentalProject v then
        [("cashflow", currencyFormat (cashflow v));
         ("endettementProjetSeul",
          percent (endettementProjetSeulTaux v * Fin 100) 1);
         ("rendement", percent (rendementBrut v) 2);
         ("rendementSouhaite", percent (rendementSouhaite v) 2);
         ("capaciteLocative",
          currencyFormat (capaciteEmpruntLocative v))]%string
        ++ (if shouldShowTargetPrice v then
              [("prixCible", currencyFormat (prixCibleRendement v));
               ("reductionCible",
                percent (JS.max (Fin 0) (reductionCible v)) 1)]%string
            else [])
      else [])
  ++ (if isNegotiationRequired v then
        [("endettementTotal", percent (endettementTotalTaux v * Fin 100) 1);
         ("prixAcceptable", currencyFormat (prixAcceptable v));
         ("reductionMinimum",
          percent (JS.max (Fin 0) (reductionMinimum v)) 1)]%string
      else []).

Definition classUpdates : list (string * string) :=
  [("capaciteMensualite", signClass (capaciteMensualite v))]%string
  ++ (if isRentalProject v
      then [("cashflow", signClass (cashflow v))]%string else []).

Definition displayUpdates : list (string * string) :=
  [("locatifResults", blockIf (isRentalProject v));
   ("locatifResults2", blockIf (isRentalProject v));
   ("locatifResults3", blockIf (isRentalProject v));
   ("locatifResults4", blockIf (isRentalProject v))]%string
  ++ (if isRentalProject v then
        [("itemPrixCible", flexIf (shouldShowTargetPrice v));
         ("itemReductionCible", flexIf (shouldShowTargetPrice v))]%string
      else [])
  ++ [("reductionResults", blockIf (isNegotiationRequired v));
      ("reductionResults2", blockIf (isNegotiationRequired v))]%string.

End PageWrites.

(** Two worlds that show the same page and hold the same store (the
    history of writes apart). *)
Definition samePage (a b : World) : Prop :=
  inputValue a = inputValue b
  /\ localStorage a = localStorage b
  /\ errorDisplay a = errorDisplay b
  /\ textContent a = textContent b
  /\ className a = className b
  /\ display a = display b.

(** The page as a new session finds it: empty fields, nothing displayed,
    and the store [st] left by an earlier session. *)
Definition reopened (st : gmap string string) : World := {|
  inputValue := ∅;
  localStorage := st;
  setItemLog := [];
  errorDisplay := "none";
  textContent := ∅;
  className := ∅;
  display := ∅
|}.

(** The same host and the one-year loan for the simpler calculator. *)
Definition sampleSimpleHost : Simple.Host := {|
  Simple.parseFloat := fun s => ofFloat (option_map inject_Z (readNatural s));
  Simple.parseTerm := fun s => ofInt (readNatural s);
  Simple.currencyFormat := fun _ => EmptyString;
  Simple.toFixed := fun _ _ => EmptyString
|}.

Definition sampleSimplePage (prixText : string) : World := {|
  inputValue :=
    list_to_map
      [("prix", prixText); ("loyer", "800"); ("tauxAnnuel", "12");
       ("nbMensualites", "12"); ("salaireActuel", "3000");
       ("mensualitesActuelles", "200")]%string;
  localStorage := ∅;
  setItemLog := [];
  errorDisplay := "none";
  textContent := ∅;
  className := ∅;
  display := ∅
|}.

(* ================================================================== *)
(** * Arithmetic on finite numbers *)
(* ================================================================== *)

Section FiniteArithmetic.

Lemma Qltb_lt (a b : Q) : JS.Qltb a b = true <-> a < b.
Proof.
  unfold JS.Qltb. rewrite negb_true_iff. split.
  - intros H. apply Qnot_le_lt. intros Hle.
    apply Qle_bool_iff in Hle. congruence.
  - intros H. destruct (Qle_bool b a) eqn:E; [|reflexivity].
    apply Qle_bool_iff in E. exfalso. apply (Qlt_not_le _ _ H E).
Qed.

Lemma Qltb_ge (a b : Q) : JS.Qltb a b = false <-> b <= a.
Proof.
  unfold JS.Qltb. rewrite negb_false_iff. apply Qle_bool_iff.
Qed.

Lemma Qle_bool_gt (a b : Q) : Qle_bool a b = false <-> b < a.
Proof.
  rewrite <- Qltb_lt. unfold JS.Qltb.
  destruct (Qle_bool a b); simpl; split; congruence.
Qed.

Lemma div_fin (a b : Q) : ~ b == 0 -> (Fin a / Fin b)%js = Fin (a / b).
Proof.
  intros Hb. simpl. destruct (Qeq_bool b 0) eqn:E; [|reflexivity].
  apply Qeq_bool_iff in E. contradiction.
Qed.

Lemma div_fin_zero (a b : Q) :
  b == 0 -> 0 < a -> (Fin a / Fin b)%js = PInf.
Proof.
  intros Hb Ha. simpl. rewrite (Qeq_eq_bool _ _ Hb).
  unfold JS.signed_inf. apply Qltb_lt in Ha. now rewrite Ha.
Qed.

Lemma pow_fin (q : Q) (n : Z) :
  ~ q == 0 -> JS.pow (Fin q) (Int n) = Fin (q ^ n).
Proof.
  intros Hq. destruct n as [|p|p]; [reflexivity| |]; unfold JS.pow;
    (destruct (Qeq_bool q 0) eqn:E;
     [apply Qeq_bool_iff in E; contradiction | reflexivity]).
Qed.

Lemma gt_fin (a b : Q) : (Fin a > Fin b)%js = true <-> b < a.
Proof. apply Qltb_lt. Qed.

Lemma gt_fin_false (a b : Q) : (Fin a > Fin b)%js = false <-> a <= b.
Proof. apply Qltb_ge. Qed.

Lemma ge_fin (a b : Q) : (Fin a >= Fin b)%js = true <-> b <= a.
Proof. apply Qle_bool_iff. Qed.

(** Growth of the compounding factor. *)
Lemma compound_gt_1 (x : Q) (n : Z) : 0 < x -> (0 < n)%Z -> 1 < (1 + x) ^ n.
Proof.
  intros Hx Hn. apply Qpower_1_lt; [lra | exact Hn].
Qed.

Lemma compound_mono (x : Q) (n m : Z) :
  0 < x -> (n < m)%Z -> (1 + x) ^ n < (1 + x) ^ m.
Proof.
  intros Hx Hnm. apply Qpower_lt_compat_l; [exact Hnm | lra].
Qed.

Lemma discount_lt_1 (x : Q) (n : Z) :
  0 < x -> (0 < n)%Z -> (1 + x) ^ (- n) < 1.
Proof.
  intros Hx Hn. rewrite Qpower_opp.
  pose proof (compound_gt_1 x n Hx Hn).
  apply Qlt_shift_inv_r; lra.
Qed.

End FiniteArithmetic.

(* ================================================================== *)
(** * Validation *)
(* ================================================================== *)

Lemma valid_SpecValid (r : RawInputs) : Valid r -> SpecValid r.
Proof.
  unfold Valid, invalid.
  destruct r as [[p|] [l|] [t|] [n|] [s|] [m|] [e|] [k|]]; simpl;
    rewrite ?orb_true_r; try discriminate.
  intros H. repeat (apply orb_false_elim in H; destruct H as [H ?]).
  exists p, l, t, n, s, m, e, k. split; [reflexivity|].
  repeat match goal with
         | H : JS.Qltb _ _ = false |- _ => apply Qltb_ge in H
         | H : Qle_bool _ _ = false |- _ => apply Qle_bool_gt in H
         | H : (_ <=? _)%Z = false |- _ => apply Z.leb_gt in H
         end.
  tauto.
Qed.

Lemma SpecValid_valid (r : RawInputs) : SpecValid r -> Valid r.
Proof.
  intros (p & l & t & n & s & m & e & k & -> & Hp & Ht & Hn & Hl & Hs & Hm).
  unfold Valid, invalid; simpl.
  apply Qltb_ge in Hl, Hs, Hm. apply Qle_bool_gt in Hp, Ht.
  apply Z.leb_gt in Hn.
  rewrite Hl, Hs, Hm, Hp, Ht, Hn. reflexivity.
Qed.

(** C2.  The validation gate accepts exactly the vectors in which every
    field parses, price, rate and term are strictly positive and rent,
    income and current debt are non-negative (the two ratios only have to
    parse); on every other vector nothing is derived. *)
Theorem validation_gate (r : RawInputs) :
  (invalid (parseInputs r) = false <-> SpecValid r)
  /\ (engine r = None <-> ~ SpecValid r).
Proof.
  assert (E : invalid (parseInputs r) = false <-> SpecValid r).
  { split; [apply valid_SpecValid | apply SpecValid_valid]. }
  split; [exact E|].
  unfold engine. cbv zeta.
  destruct (invalid (parseInputs r)) eqn:I; split.
  - intros _ HS. apply E in HS. discriminate.
  - reflexivity.
  - discriminate.
  - intros HS. exfalso. apply HS, E. reflexivity.
Qed.

(** The scenario [price = -1] of the specification. *)
Example negative_price_invalid :
  engine {| f_prix := Some (-1); f_loyer := Some 800; f_taux := Some 3.5;
            f_duree := Some 240%Z; f_salaire := Some 3000;
            f_mensualiteActuel := Some 200; f_endettementMax := Some 35;
            f_loyerPrisEnCompte := Some 70 |} = None.
Proof. reflexivity. Qed.

(** Neither calculator lets a zero rate through its validation. *)
Lemma zero_rate_rejected (r : RawInputs) (q : Q) (x y : num) :
  f_taux r = Some q -> q == 0 ->
  invalid (parseInputs r) = true /\ Variant.invalid x (Fin q) y = true.
Proof.
  intros Hq H0.
  assert (E : (Fin q <= Fin 0)%js = true) by (apply Qle_bool_iff; lra).
  split.
  - unfold invalid. simpl tauxAnnuel. rewrite Hq. simpl ofFloat. rewrite E.
    rewrite ?orb_true_r. reflexivity.
  - unfold Variant.invalid. rewrite E. rewrite ?orb_true_r. reflexivity.
Qed.

(* ================================================================== *)
(** * The values computed on a valid input *)
(* ================================================================== *)

Lemma valid_locals (r : RawInputs) :
  Valid r ->
  exists p l t n s m e k,
    parseInputs r = finiteLocals p l t n s m e k
    /\ 0 < p /\ 0 < t /\ (0 < n)%Z /\ 0 <= l /\ 0 <= s /\ 0 <= m.
Proof.
  intros H. apply valid_SpecValid in H.
  destruct H as (p & l & t & n & s & m & e & k & -> & H).
  exists p, l, t, n, s, m, e, k. split; [reflexivity | exact H].
Qed.

Section OnValidInput.

Variables (p l t : Q) (n : Z) (s m e k : Q).
Hypothesis Ht : 0 < t.
Hypothesis Hn : (0 < n)%Z.

Let v := finiteLocals p l t n s m e k.

Lemma rate_pos : 0 < rate t.
Proof using Ht.
  unfold rate. apply Qlt_shift_div_l; [reflexivity|].
  apply Qlt_shift_div_l; [reflexivity|]. lra.
Qed.

Lemma growth_gt_1 : 1 < growth t n.
Proof using Ht Hn. apply compound_gt_1; [apply rate_pos | exact Hn]. Qed.

Lemma tauxMensuel_fin : tauxMensuel v = Fin (rate t).
Proof using Type. reflexivity. Qed.

Lemma base_nonzero : ~ 1 + rate t == 0.
Proof using Ht. pose proof rate_pos. lra. Qed.

Lemma facteurPMT_fin :
  facteurPMT v = Fin (rate t * growth t n / (growth t n + - 1)).
Proof using Ht Hn.
  unfold facteurPMT. rewrite tauxMensuel_fin. simpl nbMensualites.
  change (Fin 1 + Fin (rate t))%js with (Fin (1 + rate t)).
  rewrite (pow_fin _ _ base_nonzero). fold (growth t n).
  change (Fin (growth t n) - Fin 1)%js with (Fin (growth t n + - 1)).
  change (Fin (rate t) * Fin (growth t n))%js with (Fin (rate t * growth t n)).
  apply div_fin. pose proof growth_gt_1. lra.
Qed.

Lemma facteur_pos : 0 < rate t * growth t n / (growth t n + - 1).
Proof using Ht Hn.
  pose proof rate_pos. pose proof growth_gt_1.
  apply Qlt_shift_div_l; [lra|]. nra.
Qed.

Lemma mensualiteProjet_fin :
  mensualiteProjet v = Fin (p * (rate t * growth t n / (growth t n + - 1))).
Proof using Ht Hn.
  unfold mensualiteProjet. rewrite facteurPMT_fin. reflexivity.
Qed.

Lemma part1_fin :
  part1 v = Fin (annuityFactor t n).
Proof using Ht.
  unfold part1, annuityFactor. rewrite tauxMensuel_fin. simpl nbMensualites.
  change (Fin 1 + Fin (rate t))%js with (Fin (1 + rate t)).
  simpl JS.negi. rewrite (pow_fin _ _ base_nonzero).
  change (Fin 1 - Fin ((1 + rate t) ^ (- n)))%js
    with (Fin (1 + - (1 + rate t) ^ (- n))).
  apply div_fin. pose proof rate_pos. lra.
Qed.

Lemma part1_pos : 0 < annuityFactor t n.
Proof using Ht Hn.
  unfold annuityFactor. pose proof rate_pos as Hr.
  pose proof (discount_lt_1 _ n Hr Hn).
  apply Qlt_shift_div_l; lra.
Qed.

End OnValidInput.

(* ================================================================== *)
(** * Loan mathematics *)
(* ================================================================== *)

Lemma rate_1200 (t : Q) : rate t == t / 1200.
Proof. unfold rate. field. Qed.

Lemma growth_1200 (t : Q) (n : Z) : growth t n == (1 + t / 1200) ^ n.
Proof. unfold growth. now rewrite rate_1200. Qed.

Lemma pmt_is_annuity (p t : Q) (n : Z) :
  0 < t -> (0 < n)%Z ->
  p * (rate t * growth t n / (growth t n + - 1)) == annuity p t n.
Proof.
  intros Ht Hn. unfold annuity. cbv zeta.
  pose proof (growth_gt_1 t n Ht Hn) as Hg.
  rewrite Qpower_opp, <- growth_1200, <- rate_1200.
  field. split; lra.
Qed.

Lemma variant_payment_fin (c t : Q) (n : Z) :
  0 < t -> (0 < n)%Z ->
  Variant.calculateMensualiteProjet (Fin c) (Fin t) (Int n)
  = Fin (c * (t / 1200) / (1 + - (1 + t / 1200) ^ (- n))).
Proof.
  intros Ht Hn. unfold Variant.calculateMensualiteProjet.
  assert (E : JS.seq (Fin t) (Fin 0) = false).
  { simpl. destruct (Qeq_bool t 0) eqn:E; [|reflexivity].
    apply Qeq_bool_iff in E. lra. }
  rewrite E. cbv zeta.
  change (Fin t / Fin 1200)%js with (Fin (t / 1200)).
  change (Fin 1 + Fin (t / 1200))%js with (Fin (1 + t / 1200)).
  simpl JS.negi.
  assert (Hr : 0 < t / 1200) by (apply Qlt_shift_div_l; lra).
  rewrite pow_fin by lra.
  change (Fin 1 - Fin ((1 + t / 1200) ^ (- n)))%js
    with (Fin (1 + - (1 + t / 1200) ^ (- n))).
  change (Fin c * Fin (t / 1200))%js with (Fin (c * (t / 1200))).
  apply div_fin.
  pose proof (discount_lt_1 _ n Hr Hn) as Hd. lra.
Qed.

Lemma valid_fields (r : RawInputs) (p t : Q) (n : Z) :
  Valid r -> f_prix r = Some p -> f_taux r = Some t -> f_duree r = Some n ->
  (exists l s m e k, parseInputs r = finiteLocals p l t n s m e k)
  /\ 0 < p /\ 0 < t /\ (0 < n)%Z.
Proof.
  intros H Hp Ht Hn. apply valid_SpecValid in H.
  destruct H as (p' & l & t' & n' & s & m & e & k & -> & H).
  simpl in Hp, Ht, Hn.
  injection Hp as <-. injection Ht as <-. injection Hn as <-.
  split; [|tauto]. exists l, s, m, e, k. reflexivity.
Qed.

(** C1 (in exact arithmetic, for a whole number of months).  On a valid
    input the monthly payment of [calculate] is the closed-form annuity
    value [principal * monthlyRate / (1 - (1 + monthlyRate)^(-termMonths))],
    [monthlyRate = annualRatePercent / 1200]; so is the value returned by
    the helper [calculateMensualiteProjet] of the simpler calculator,
    whose zero-rate branch returns [capital / dureeMois]. *)
Theorem monthly_payment_closed_form (r : RawInputs) (p t : Q) (n : Z) :
  Valid r -> f_prix r = Some p -> f_taux r = Some t -> f_duree r = Some n ->
  mensualiteProjet (parseInputs r) =n= Fin (annuity p t n)
  /\ Variant.calculateMensualiteProjet (Fin p) (Fin t) (Int n)
     =n= Fin (annuity p t n)
  /\ forall (c : num) (d : jsint),
       Variant.calculateMensualiteProjet c (Fin 0) d = (c / JS.toNum d)%js.
Proof.
  intros H Hp Ht Hn.
  destruct (valid_fields r p t n H Hp Ht Hn)
    as ((l & s & m & e & k & ->) & Hp0 & Ht0 & Hn0).
  repeat split.
  - rewrite mensualiteProjet_fin by assumption. simpl.
    apply pmt_is_annuity; assumption.
  - rewrite variant_payment_fin by assumption. simpl.
    unfold annuity. cbv zeta. reflexivity.
Qed.

Lemma monthly_payment_closed_form_scenario :
  mensualiteProjet (parseInputs scenario) =n= Fin (annuity 200000 3.5 240).
Proof.
  exact (proj1 (monthly_payment_closed_form scenario 200000 3.5 240%Z
                  eq_refl eq_refl eq_refl eq_refl)).
Defined.

(** Counterexample to C1 as stated, on the binary64 numbers of the running
    program, at 100 % a month (every power is then a power of two and
    exact).  Rounding: on 200000 over 2 months the payment of [script.js],
    [200000 * (4 / 3)], and the one of the helper, [200000 / 0.75], are
    different numbers, so they are not both the closed-form value.
    Overflow: on 25 over 1024 months the input is valid,
    [Math.pow(2, 1024)] is [Infinity], [facteurPMT] is
    [Infinity / Infinity] and the payment of [script.js] is NaN, while the
    helper returns 25. *)
Lemma payment_differs_from_closed_form :
  B64.invalid (doubling 2) = false
  /\ (B64.mensualiteProjet (doubling 2)
      =? B64.calculateMensualiteProjet 200000 1200 (Int 2))%float = false
  /\ B64.invalid millennium = false
  /\ B64.pow 2 (B64.nbMensualites millennium) = PrimFloat.infinity
  /\ B64.isNaN (B64.facteurPMT millennium) = true
  /\ B64.isNaN (B64.mensualiteProjet millennium) = true
  /\ B64.calculateMensualiteProjet 25 1200 (Int 1024) = 25%float.
Proof. vm_compute. repeat split. Qed.

(** C9 (in exact arithmetic).  On a valid input the
    payment-per-unit-principal factor and the monthly payment are strictly
    positive (and so is the payment the helper of the simpler calculator
    returns for a whole number of months). *)
Theorem payment_strictly_positive (r : RawInputs) (p t : Q) (n : Z) :
  Valid r -> f_prix r = Some p -> f_taux r = Some t -> f_duree r = Some n ->
  (facteurPMT (parseInputs r) > Fin 0)%js = true
  /\ (mensualiteProjet (parseInputs r) > Fin 0)%js = true
  /\ (Variant.calculateMensualiteProjet (Fin p) (Fin t) (Int n) > Fin 0)%js
     = true.
Proof.
  intros H Hp Ht Hn.
  destruct (valid_fields r p t n H Hp Ht Hn)
    as ((l & s & m & e & k & ->) & Hp0 & Ht0 & Hn0).
  pose proof (facteur_pos t n Ht0 Hn0) as Hf.
  repeat split.
  - rewrite facteurPMT_fin by assumption. now apply gt_fin.
  - rewrite mensualiteProjet_fin by assumption. apply gt_fin.
    apply Qmult_lt_0_compat; assumption.
  - rewrite variant_payment_fin by assumption. apply gt_fin.
    assert (Hr : 0 < t / 1200) by (apply Qlt_shift_div_l; lra).
    pose proof (discount_lt_1 _ n Hr Hn0) as Hd.
    apply Qlt_shift_div_l; [lra|].
    rewrite Qmult_0_l. apply Qmult_lt_0_compat; assumption.
Qed.

Lemma payment_strictly_positive_scenario :
  (facteurPMT (parseInputs scenario) > Fin 0)%js = true
  /\ (mensualiteProjet (parseInputs scenario) > Fin 0)%js = true
  /\ (Variant.calculateMensualiteProjet (Fin 200000) (Fin 3.5) (Int 240)
      > Fin 0)%js = true.
Proof.
  exact (payment_strictly_positive scenario 200000 3.5 240%Z
           eq_refl eq_refl eq_refl eq_refl).
Defined.

(** Counterexample to C9 as stated, on the binary64 numbers of the running
    program.  Overflow: at 100 % a month over 1024 months the input is
    valid and neither [facteurPMT > 0] nor [mensualiteProjet > 0] holds
    (both are NaN, the compounding factor having overflowed to
    [Infinity]).  Underflow: at the smallest positive rate the input is
    valid, [tauxMensuel] rounds to 0 and [facteurPMT] is [0 / 0]. *)
Lemma payment_factor_not_positive :
  B64.invalid millennium = false
  /\ (0 <? B64.facteurPMT millennium)%float = false
  /\ (0 <? B64.mensualiteProjet millennium)%float = false
  /\ B64.invalid vanishingRate = false
  /\ (0 <? B64.tauxAnnuel vanishingRate)%float = true
  /\ B64.tauxMensuel vanishingRate = 0%float
  /\ (0 <? B64.facteurPMT vanishingRate)%float = false
  /\ (0 <? B64.mensualiteProjet vanishingRate)%float = false.
Proof. vm_compute. repeat split. Qed.

Lemma pmt_factor_decreasing (r g1 g2 : Q) :
  0 < r -> 1 < g1 -> g1 < g2 ->
  r * g2 / (g2 + - 1) < r * g1 / (g1 + - 1).
Proof.
  intros Hr H1 H12.
  assert (E1 : r * g1 / (g1 + - 1) == r + r / (g1 + - 1)) by (field; lra).
  assert (E2 : r * g2 / (g2 + - 1) == r + r / (g2 + - 1)) by (field; lra).
  rewrite E1, E2. apply Qplus_lt_r.
  apply Qlt_shift_div_r; [lra|].
  assert (E3 : r / (g1 + - 1) * (g2 + - 1)
               == r + r * (g2 - g1) / (g1 + - 1)) by (field; lra).
  rewrite E3.
  assert (0 < r * (g2 - g1) / (g1 + - 1)).
  { apply Qlt_shift_div_l; [lra|]. nra. }
  lra.
Qed.

Lemma annuity_decreasing (c x d1 d2 : Q) :
  0 < c -> 0 < x -> d2 < d1 -> d1 < 1 ->
  c * x / (1 + - d2) < c * x / (1 + - d1).
Proof.
  intros Hc Hx H21 H1.
  assert (Hcx : 0 < c * x) by (apply Qmult_lt_0_compat; assumption).
  apply Qlt_shift_div_r; [lra|].
  assert (E : c * x / (1 + - d1) * (1 + - d2)
              == c * x + c * x * (d1 - d2) / (1 + - d1)) by (field; lra).
  rewrite E.
  assert (0 < c * x * (d1 - d2) / (1 + - d1)).
  { apply Qlt_shift_div_l; [lra|]. nra. }
  lra.
Qed.

(** C6 (in exact arithmetic).  With the price and a positive rate fixed,
    a longer term gives a strictly smaller monthly payment: two valid
    inputs (so the price is positive) that differ by their whole terms
    [t1 < t2] have [mensualiteProjet] strictly smaller for [t2], and so
    has the helper of the simpler calculator. *)
Theorem payment_decreases_with_term
    (r1 r2 : RawInputs) (p t : Q) (t1 t2 : Z) :
  Valid r1 -> Valid r2 ->
  f_prix r1 = Some p -> f_prix r2 = Some p ->
  f_taux r1 = Some t -> f_taux r2 = Some t ->
  f_duree r1 = Some t1 -> f_duree r2 = Some t2 ->
  (t1 < t2)%Z ->
  (mensualiteProjet (parseInputs r2) < mensualiteProjet (parseInputs r1))%js
  = true
  /\ (Variant.calculateMensualiteProjet (Fin p) (Fin t) (Int t2)
      < Variant.calculateMensualiteProjet (Fin p) (Fin t) (Int t1))%js
     = true.
Proof.
  intros V1 V2 Hp1 Hp2 Ht1 Ht2 Hd1 Hd2 Hlt.
  destruct (valid_fields r1 p t t1 V1 Hp1 Ht1 Hd1)
    as ((l1 & s1 & m1 & e1 & k1 & ->) & Hp0 & Ht0 & Hn1).
  destruct (valid_fields r2 p t t2 V2 Hp2 Ht2 Hd2)
    as ((l2 & s2 & m2 & e2 & k2 & ->) & _ & _ & Hn2).
  split.
  - rewrite !mensualiteProjet_fin by assumption. apply Qltb_lt.
    apply Qmult_lt_l; [assumption|].
    apply pmt_factor_decreasing.
    + now apply rate_pos.
    + now apply growth_gt_1.
    + apply compound_mono; [now apply rate_pos | assumption].
  - rewrite !variant_payment_fin by assumption. apply Qltb_lt.
    assert (Hr : 0 < t / 1200) by (apply Qlt_shift_div_l; lra).
    apply annuity_decreasing; try assumption.
    + apply Qpower_lt_compat_l; [lia | lra].
    + now apply discount_lt_1.
Qed.

Lemma payment_decreases_with_term_scenario :
  (mensualiteProjet (parseInputs scenario)
   < mensualiteProjet (parseInputs scenario120))%js = true
  /\ (Variant.calculateMensualiteProjet (Fin 200000) (Fin 3.5) (Int 240)
      < Variant.calculateMensualiteProjet (Fin 200000) (Fin 3.5) (Int 120))%js
     = true.
Proof.
  exact (payment_decreases_with_term scenario120 scenario 200000 3.5
           120%Z 240%Z eq_refl eq_refl eq_refl eq_refl eq_refl eq_refl
           eq_refl eq_refl eq_refl).
Defined.

(** Counterexample to C6 as stated, on the binary64 numbers of the running
    program: at 100 % a month the payments on 200000 over 60 and over 61
    months are both exactly 200000 ([2^60 - 1] rounds to [2^60], so the
    payment factor is 1 in both cases), in [script.js] and in the helper
    of the simpler calculator: the longer term does not pay strictly
    less. *)
Lemma longer_term_same_payment :
  B64.invalid (doubling 60) = false
  /\ B64.invalid (doubling 61) = false
  /\ B64.mensualiteProjet (doubling 60) = 200000%float
  /\ B64.mensualiteProjet (doubling 61) = 200000%float
  /\ (B64.mensualiteProjet (doubling 61)
      <? B64.mensualiteProjet (doubling 60))%float = false
  /\ (B64.calculateMensualiteProjet 200000 1200 (Int 61)
      <? B64.calculateMensualiteProjet 200000 1200 (Int 60))%float = false.
Proof. vm_compute. repeat split. Qed.

(* ================================================================== *)
(** * Visibility policy and negotiation threshold *)
(* ================================================================== *)

Lemma num_eq_not_gt (x y : num) : x =n= y -> (x > y)%js = false.
Proof.
  destruct x as [a| | |], y as [b| | |]; simpl; try tauto.
  intros E. apply Qltb_ge. rewrite E. apply Qle_refl.
Qed.

Lemma num_eq_fin_ge (a : Q) (y : num) : Fin a =n= y -> (Fin a >= y)%js = true.
Proof.
  destruct y as [b| | |]; simpl; try tauto.
  intros E. apply Qle_bool_iff. rewrite E. apply Qle_refl.
Qed.

Lemma engine_Some (r : RawInputs) (d : DerivedResult) :
  engine r = Some d -> Valid r /\ d = derive (parseInputs r).
Proof.
  unfold engine, Valid. cbv zeta.
  destruct (invalid (parseInputs r)); [discriminate|].
  intros E. injection E as <-. split; reflexivity.
Qed.

(** C5.  On a valid input [isNegotiationRequired] is [price >
    acceptablePrice] and [showTargetPrice] is [rent > 0 && price >=
    targetPrice]; in particular a price equal to the acceptable price
    requires no negotiation, and with a positive rent a price equal to the
    target price shows the target price. *)
Theorem visibility_boundaries (r : RawInputs) (d : DerivedResult) :
  engine r = Some d ->
  let v := parseInputs r in
  r_isNegotiationRequired d = (prix v > r_prixAcceptable d)%js
  /\ r_showTargetPrice d
     = (loyer v > Fin 0)%js && (prix v >= r_prixCible d)%js
  /\ (prix v =n= r_prixAcceptable d -> r_isNegotiationRequired d = false)
  /\ ((loyer v > Fin 0)%js = true -> prix v =n= r_prixCible d ->
      r_showTargetPrice d = true).
Proof.
  intros E v. apply engine_Some in E. destruct E as [HV ->].
  unfold derive.
  cbn [r_isNegotiationRequired r_showTargetPrice r_prixAcceptable r_prixCible].
  fold v.
  assert (Hshow :
            showTargetPrice v
            = (loyer v > Fin 0)%js && (prix v >= prixCibleRendement v)%js).
  { unfold showTargetPrice, isRentalProject, shouldShowTargetPrice.
    destruct (loyer v > Fin 0)%js; reflexivity. }
  split; [reflexivity|]. split; [exact Hshow|]. split.
  - intros Hp. unfold isNegotiationRequired. now apply num_eq_not_gt.
  - intros Hl Hp. rewrite Hshow, Hl. cbn [andb].
    destruct (valid_locals r HV) as (p & l & t & n & s & m & e & k & Ev & _).
    unfold v in *. rewrite Ev in *. simpl prix in *.
    now apply num_eq_fin_ge.
Qed.

Lemma visibility_boundaries_at_boundary :
  let v := parseInputs boundary in
  prix v =n= prixAcceptable v /\ prix v =n= prixCibleRendement v
  /\ isNegotiationRequired v = false /\ showTargetPrice v = true.
Proof.
  intros v.
  destruct (visibility_boundaries boundary (derive v) eq_refl)
    as (_ & _ & Hn & Hs).
  assert (E1 : prix v =n= prixAcceptable v) by reflexivity.
  assert (E2 : prix v =n= prixCibleRendement v) by reflexivity.
  exact (conj E1 (conj E2 (conj (Hn E1) (Hs eq_refl E2)))).
Defined.

Section Negotiation.

Variables (p l t : Q) (n : Z) (s m e k : Q).
Let v := finiteLocals p l t n s m e k.

Lemma mensualiteCible_fin :
  mensualiteCible v = Fin (e / 100 * (l + s) + - m).
Proof using Type. reflexivity. Qed.

Lemma prixAcceptable_fallback :
  e / 100 * (l + s) - m <= 0 -> prixAcceptable v = Fin 0.
Proof using Type.
  intros H. unfold prixAcceptable. rewrite mensualiteCible_fin.
  assert (E : (Fin (e / 100 * (l + s) + - m) > Fin 0)%js = false)
    by (apply gt_fin_false; exact H).
  rewrite E. reflexivity.
Qed.

End Negotiation.

(** C10.  On a valid input whose acceptable monthly payment
    [mensualiteCible = endettementMax * (loyer + salaire) - mensualiteActuel],
    as the program computes it, is not strictly positive (the test
    [mensualiteCible > 0] of the guard fails), the acceptable price stays
    at its initial 0 and, the price of a valid input being positive,
    negotiation is required. *)
Theorem no_capacity_requires_negotiation (r : RawInputs) :
  Valid r ->
  let v := parseInputs r in
  (mensualiteCible v > Fin 0)%js = false ->
  mensualiteCible v
  = (endettementMax v * (loyer v + salaire v) - mensualiteActuel v)%js
  /\ prixAcceptable v = Fin 0
  /\ isNegotiationRequired v = true.
Proof.
  intros HV v Hle.
  assert (Ea : prixAcceptable v = Fin 0).
  { unfold prixAcceptable. now rewrite Hle. }
  split; [reflexivity|]. split; [exact Ea|].
  unfold isNegotiationRequired. rewrite Ea.
  destruct (valid_locals r HV)
    as (p & l & t & n & s & m & e & k & Ev & Hp & _).
  unfold v. rewrite Ev. now apply gt_fin.
Qed.

Lemma no_capacity_requires_negotiation_overindebted :
  let v := parseInputs overindebted in
  mensualiteCible v
  = (endettementMax v * (loyer v + salaire v) - mensualiteActuel v)%js
  /\ prixAcceptable v = Fin 0
  /\ isNegotiationRequired v = true.
Proof.
  exact (no_capacity_requires_negotiation overindebted eq_refl eq_refl).
Defined.

(* ================================================================== *)
(** * Rental metrics *)
(* ================================================================== *)

Section Rental.

Variables (p l t : Q) (n : Z) (s m e k : Q).
Hypothesis Hp : 0 < p.
Hypothesis Ht : 0 < t.
Hypothesis Hn : (0 < n)%Z.

Let v := finiteLocals p l t n s m e k.

Lemma prix_positive : (prix v > Fin 0)%js = true.
Proof using Hp. now apply gt_fin. Qed.

Lemma rendementSouhaite_zero_ratio :
  e == 0 -> rendementSouhaite v = PInf.
Proof using Ht.
  intros He. unfold rendementSouhaite, v. rewrite part1_fin by assumption.
  simpl endettementMax.
  change (Fin (e / 100) * Fin (annuityFactor t n))%js
    with (Fin (e / 100 * annuityFactor t n)).
  rewrite div_fin_zero; [reflexivity | | reflexivity].
  rewrite He. field.
Qed.

Lemma rendementSouhaite_fin :
  ~ e == 0 ->
  rendementSouhaite v = Fin (12 / (e / 100 * annuityFactor t n) * 100).
Proof using Ht Hn.
  intros He. unfold rendementSouhaite, v. rewrite part1_fin by assumption.
  simpl endettementMax.
  change (Fin (e / 100) * Fin (annuityFactor t n))%js
    with (Fin (e / 100 * annuityFactor t n)).
  rewrite div_fin; [reflexivity|].
  pose proof (part1_pos t n Ht Hn) as HP. intros E. apply He.
  apply Qmult_integral in E. destruct E as [E | E]; [|lra].
  unfold Qdiv in E. apply Qmult_integral in E.
  destruct E as [E | E]; [exact E | vm_compute in E; discriminate E].
Qed.

Lemma rent_zero_not_rental : l == 0 -> (loyer v > Fin 0)%js = false.
Proof using Type. intros Hl. apply gt_fin_false. lra. Qed.

(** [0 - x] is [-x], whatever [x] is (NaN and the infinities included). *)
Lemma rent_zero_cashflow :
  l == 0 -> cashflow v =n= JS.neg (mensualiteProjet v).
Proof using Type.
  intros Hl. unfold cashflow. simpl loyer.
  destruct (mensualiteProjet v) as [b| | |]; simpl; [lra | exact I ..].
Qed.

Lemma rent_zero_reduction :
  l == 0 -> reductionCible v =n= Fin 100.
Proof using Hp.
  intros Hl. unfold reductionCible, prixCibleRendement.
  rewrite prix_positive, (rent_zero_not_rental Hl), andb_false_r.
  simpl prix. change (Fin p - Fin 0)%js with (Fin (p + - 0)).
  rewrite div_fin by lra. simpl. field. lra.
Qed.

End Rental.

(** C3 (as the code has it).  On a valid input without rent the project
    is not a rental project and gross yield and target price take their
    fallback 0; the cash flow, which has no fallback, is minus the monthly
    payment, and the target reduction is 100 %. *)
Theorem rent_zero_results (r : RawInputs) (l : Q) :
  Valid r -> f_loyer r = Some l -> l == 0 ->
  let v := parseInputs r in
  isRentalProject v = false
  /\ rendementBrut v = Fin 0
  /\ prixCibleRendement v = Fin 0
  /\ cashflow v =n= JS.neg (mensualiteProjet v)
  /\ reductionCible v =n= Fin 100.
Proof.
  intros HV Hl Hl0 v. apply valid_SpecValid in HV.
  destruct HV as (p & l' & t & n & s & m & e & k & -> & Hp & Ht & Hn & _).
  simpl in Hl. injection Hl as ->.
  change v with (finiteLocals p l t n s m e k). clear v.
  pose proof (rent_zero_not_rental p l t n s m e k Hl0) as Hr.
  pose proof (rent_zero_cashflow p l t n s m e k Hl0) as Hc.
  split; [exact Hr|].
  split. { unfold rendementBrut, rendementBrutPour.
           now rewrite Hr, andb_false_r. }
  split. { unfold prixCibleRendement. now rewrite Hr, andb_false_r. }
  split; [exact Hc|].
  now apply rent_zero_reduction.
Qed.

Lemma rent_zero_results_rentFree :
  let v := parseInputs rentFree in
  isRentalProject v = false
  /\ rendementBrut v = Fin 0
  /\ prixCibleRendement v = Fin 0
  /\ cashflow v =n= JS.neg (mensualiteProjet v)
  /\ reductionCible v =n= Fin 100.
Proof.
  exact (rent_zero_results rentFree 0 eq_refl eq_refl eq_refl).
Defined.

(** The cash flow without rent has no definite sign on the binary64
    numbers of the running program: it is NaN where the payment is. *)
Example rent_zero_cashflow_overflow :
  let v := B64.fields 25 0 1200 1024 3000 200 35 70 in
  B64.invalid v = false
  /\ B64.isNaN (B64.cashflow v) = true
  /\ (B64.cashflow v <? 0)%float = false.
Proof. vm_compute. repeat split. Qed.

(** Counterexample to C3 as stated: without rent, cash flow and target
    reduction are not zero. *)
Lemma rent_zero_cashflow_not_zero :
  Valid rentFree
  /\ loyer (parseInputs rentFree) = Fin 0
  /\ ~ (cashflow (parseInputs rentFree) =n= Fin 0)
  /\ ~ (reductionCible (parseInputs rentFree) =n= Fin 0).
Proof.
  split; [reflexivity|]. split; [reflexivity|].
  split; vm_compute; discriminate.
Qed.

(** Where the desired yield is finite and positive, the target price is
    the price at which the gross-yield formula gives the desired yield. *)
Lemma target_price_reaches_desired_yield (r : RawInputs) :
  Valid r ->
  let v := parseInputs r in
  (loyer v > Fin 0)%js = true ->
  (rendementSouhaite v > Fin 0)%js = true ->
  rendementSouhaite v <> PInf ->
  rendementBrutPour v (prixCibleRendement v) =n= rendementSouhaite v.
Proof.
  intros HV v. apply valid_SpecValid in HV.
  destruct HV as (p & l & t & n & s & m & e & k & -> & Hp & Ht & Hn & _).
  change v with (finiteLocals p l t n s m e k). clear v.
  intros Hl Hrs Hfin.
  destruct (Qeq_dec e 0) as [He | He].
  { exfalso. apply Hfin. now apply rendementSouhaite_zero_ratio. }
  unfold prixCibleRendement, rendementBrutPour.
  rewrite rendementSouhaite_fin in * by assumption.
  set (q := 12 / (e / 100 * annuityFactor t n) * 100) in *.
  rewrite Hrs, Hl. cbn [andb]. simpl loyer in *.
  apply gt_fin in Hl, Hrs.
  change (Fin q / Fin 100)%js with (Fin (q / 100)).
  change (Fin l * Fin 12)%js with (Fin (l * 12)).
  assert (Hq : 0 < q / 100) by (apply Qlt_shift_div_l; lra).
  rewrite div_fin by lra.
  assert (HT : 0 < l * 12 / (q / 100)) by (apply Qlt_shift_div_l; lra).
  apply gt_fin in HT. rewrite HT. apply gt_fin in HT. cbn [andb].
  rewrite div_fin by lra. simpl. field. split; lra.
Qed.

(** C7 at an acceptable debt ratio of 0 %: the desired yield is
    [Infinity], which is [> 0]; the target price is then 0, where the
    gross-yield formula takes its fallback 0 and not the desired yield. *)
Theorem target_price_at_zero_ratio :
  let v := parseInputs zeroRatio in
  Valid zeroRatio
  /\ (loyer v > Fin 0)%js = true
  /\ rendementSouhaite v = PInf
  /\ (rendementSouhaite v > Fin 0)%js = true
  /\ prixCibleRendement v =n= Fin 0
  /\ rendementBrutPour v (prixCibleRendement v) = Fin 0
  /\ ~ (rendementBrutPour v (prixCibleRendement v) =n= rendementSouhaite v).
Proof.
  vm_compute. repeat split; try reflexivity. intros [].
Qed.

(* ================================================================== *)
(** * Division guards *)
(* ================================================================== *)

Lemma positive_nonzero (x : num) : (x > Fin 0)%js = true -> isZero x = false.
Proof.
  destruct x as [a| | |]; try reflexivity. simpl.
  intros H. apply Qltb_lt in H.
  destruct (Qeq_bool a 0) eqn:E; [|reflexivity].
  apply Qeq_bool_iff in E. lra.
Qed.

Lemma positive_percent_nonzero (x : num) :
  (x > Fin 0)%js = true -> isZero (x / Fin 100) = false.
Proof.
  destruct x as [a| | |]; try reflexivity; try discriminate.
  intros H. apply gt_fin in H.
  change (Fin a / Fin 100)%js with (Fin (a / 100)).
  apply positive_nonzero, gt_fin. apply Qlt_shift_div_l; lra.
Qed.

Lemma fin_nonzero (a : Q) : ~ a == 0 -> isZero (Fin a) = false.
Proof.
  intros H. simpl. destruct (Qeq_bool a 0) eqn:E; [|reflexivity].
  apply Qeq_bool_iff in E. contradiction.
Qed.

Lemma site_guarded (c : bool) (name : string) (d : num) :
  (c = true -> isZero d = false) ->
  forallb (fun d => negb (isZero (snd d))) (if c then [(name, d)] else [])
  = true.
Proof.
  destruct c; [|reflexivity]. intros H. simpl. now rewrite H.
Qed.

(** Apart from the one of [rendementSouhaite], every division executed on
    a valid input has a non-zero divisor; that one has too as soon as the
    acceptable debt ratio is not 0. *)
Lemma divisions_guarded (r : RawInputs) (e : Q) :
  Valid r -> f_endettementMax r = Some e -> ~ e == 0 ->
  guarded (parseInputs r) = true.
Proof.
  intros HV He He0. apply valid_SpecValid in HV.
  destruct HV as (p & l & t & n & s & m & e' & k & -> & Hp & Ht & Hn & _).
  simpl in He. injection He as ->.
  change (parseInputs _) with (finiteLocals p l t n s m e k).
  set (v := finiteLocals p l t n s m e k).
  unfold guarded, divisions. cbv zeta.
  rewrite !forallb_app.
  repeat match goal with
         | |- (_ && _)%bool = true => apply andb_true_intro; split
         end;
    try reflexivity;
    try (apply site_guarded; intros Hc;
         try (apply andb_true_iff in Hc; destruct Hc as [Hc1 Hc2]);
         first [ now apply positive_nonzero
               | now apply positive_percent_nonzero
               | reflexivity ]).
  - (* facteurPMT *)
    cbn [forallb snd]. rewrite andb_true_r. apply negb_true_iff.
    unfold v, tauxMensuel. simpl tauxAnnuel. simpl nbMensualites.
    change (Fin 1 + Fin t / Fin 100 / Fin 12)%js with (Fin (1 + rate t)).
    rewrite (pow_fin _ _ (base_nonzero t Ht)).
    change (Fin ((1 + rate t) ^ n) - Fin 1)%js with (Fin (growth t n + - 1)).
    apply fin_nonzero. pose proof (growth_gt_1 t n Ht Hn). lra.
  - (* part1 and rendementSouhaite *)
    cbn [forallb snd]. rewrite andb_true_r.
    apply andb_true_intro; split; apply negb_true_iff.
    + apply fin_nonzero. pose proof (rate_pos t Ht).
      change (~ rate t == 0). lra.
    + unfold v. rewrite part1_fin by assumption. simpl endettementMax.
      change (Fin (e / 100) * Fin (annuityFactor t n))%js
        with (Fin (e / 100 * annuityFactor t n)).
      apply fin_nonzero. pose proof (part1_pos t n Ht Hn) as HP.
      intros E. apply Qmult_integral in E. destruct E as [E | E]; [|lra].
      unfold Qdiv in E. apply Qmult_integral in E.
      destruct E as [E | E]; [contradiction | vm_compute in E; discriminate E].
Qed.

(** With an acceptable debt ratio of 0 % that division always has a zero
    divisor. *)
Lemma zero_ratio_unguarded (r : RawInputs) (e : Q) :
  Valid r -> f_endettementMax r = Some e -> e == 0 ->
  (endettementMax (parseInputs r) * part1 (parseInputs r))%js =n= Fin 0
  /\ rendementSouhaite (parseInputs r) = PInf.
Proof.
  intros HV He He0. apply valid_SpecValid in HV.
  destruct HV as (p & l & t & n & s & m & e' & k & -> & Hp & Ht & Hn & _).
  simpl in He. injection He as ->.
  change (parseInputs _) with (finiteLocals p l t n s m e k).
  split; [|now apply rendementSouhaite_zero_ratio].
  rewrite part1_fin by assumption. simpl. rewrite He0. field.
Qed.

(** C4 at an acceptable debt ratio of 0 %: the division that produces the
    desired yield is executed with a zero divisor, no fallback is taken,
    and the desired yield is [Infinity]. *)
Theorem desired_yield_division_unguarded :
  let v := parseInputs zeroRatio in
  Valid zeroRatio
  /\ existsb (fun d => String.eqb (fst d) "rendementSouhaite"
                       && isZero (snd d)) (divisions v) = true
  /\ guarded v = false
  /\ rendementSouhaite v = PInf.
Proof.
  vm_compute. repeat split; reflexivity.
Qed.

(* ================================================================== *)
(** * Persistence *)
(* ================================================================== *)

Lemma sameStore_refl (w : World) : sameStore w w.
Proof. repeat split. Qed.

Lemma sameStore_trans (a b c : World) :
  sameStore a b -> sameStore b c -> sameStore a c.
Proof.
  intros (? & ? & ?) (? & ? & ?). repeat split; congruence.
Qed.

Lemma sameStore_setText (key s : string) (w : World) :
  sameStore (setText key s w) w.
Proof. repeat split. Qed.

Lemma sameStore_setClass (key s : string) (w : World) :
  sameStore (setClass key s w) w.
Proof. repeat split. Qed.

Lemma sameStore_setDisplay (key s : string) (w : World) :
  sameStore (setDisplay key s w) w.
Proof. repeat split. Qed.

Lemma sameStore_setError (s : string) (w : World) :
  sameStore (setError s w) w.
Proof. repeat split. Qed.

Lemma sameStore_foldl (f : World -> string -> World) (keys : list string) :
  (forall w key, sameStore (f w key) w) ->
  forall w, sameStore (foldl f w keys) w.
Proof.
  intros Hf. induction keys as [|key keys IH]; intros w; simpl.
  - apply sameStore_refl.
  - eapply sameStore_trans; [apply IH | apply Hf].
Qed.

Lemma foldl_insert_lookup
    (f : string -> string) (ids : list string)
    (st : gmap string string) (k : string) :
  foldl (fun st id => <[id := f id]> st) st ids !! k
  = if decide (k ∈ ids) then Some (f k) else st !! k.
Proof.
  revert st. induction ids as [|a ids IH]; intros st; cbn [foldl].
  - destruct (decide (k ∈ [])) as [Hk|]; [by apply elem_of_nil in Hk | done].
  - rewrite IH. destruct (decide (k = a)) as [-> | Hne].
    + rewrite lookup_insert_eq.
      rewrite (decide_True (P := a ∈ a :: ids))
        by (apply elem_of_cons; by left).
      by destruct (decide (a ∈ ids)).
    + rewrite lookup_insert_ne by done.
      destruct (decide (k ∈ ids)) as [Hin | Hin].
      * by rewrite decide_True by (apply elem_of_cons; by right).
      * rewrite decide_False; [done|].
        intros Hk. apply elem_of_cons in Hk. by destruct Hk.
Qed.

Lemma saveData_fold (ids : list string) (w : World) :
  let w' := foldl (fun w id => setItem id (valueOf w id) w) w ids in
  inputValue w' = inputValue w
  /\ setItemLog w' = setItemLog w ++ map (fun id => (id, valueOf w id)) ids
  /\ localStorage w'
     = foldl (fun st id => <[id := valueOf w id]> st) (localStorage w) ids.
Proof.
  revert w. induction ids as [|a ids IH]; intros w; simpl.
  - by rewrite app_nil_r.
  - destruct (IH (setItem a (valueOf w a) w)) as (Hi & Hg & Hl).
    rewrite Hi, Hg, Hl. simpl. by rewrite <- app_assoc.
Qed.

Lemma saveData_log (w : World) :
  setItemLog (saveData w)
  = setItemLog w ++ map (fun id => (id, valueOf w id)) inputIds.
Proof. apply saveData_fold. Qed.

Lemma saveData_written (w : World) (id : string) :
  id ∈ inputIds -> localStorage (saveData w) !! id = Some (valueOf w id).
Proof.
  intros Hid. unfold saveData.
  destruct (saveData_fold inputIds w) as (_ & _ & ->).
  rewrite foldl_insert_lookup. by rewrite decide_True.
Qed.

Lemma saveData_other (w : World) (id : string) :
  id ∉ inputIds -> localStorage (saveData w) !! id = localStorage w !! id.
Proof.
  intros Hid. unfold saveData.
  destruct (saveData_fold inputIds w) as (_ & _ & ->).
  rewrite foldl_insert_lookup. by rewrite decide_False.
Qed.

Lemma saveData_sameStore (a b : World) :
  sameStore a b ->
  setItemLog (saveData a) = setItemLog (saveData b)
  /\ localStorage (saveData a) = localStorage (saveData b).
Proof.
  intros (Hi & Hl & Hg). unfold saveData.
  destruct (saveData_fold inputIds a) as (_ & -> & ->).
  destruct (saveData_fold inputIds b) as (_ & -> & ->).
  unfold valueOf. rewrite Hi, Hl, Hg. split; reflexivity.
Qed.

Lemma loadData_reads_only (w : World) :
  localStorage (loadData w) = localStorage w
  /\ setItemLog (loadData w) = setItemLog w.
Proof.
  unfold loadData. generalize inputIds as ids. intros ids. revert w.
  induction ids as [|a ids IH]; intros w; cbn [foldl]; [by split|].
  destruct (localStorage w !! a) as [savedValue|]; [|apply IH].
  destruct (IH (setValue a savedValue w)) as [-> ->]. by split.
Qed.

Lemma inputIds_NoDup : NoDup inputIds.
Proof.
  unfold inputIds. repeat constructor; simpl; intuition discriminate.
Qed.

Section PersistenceOfCalculate.

Context `{Host}.

Lemma showBlank_sameStore (w : World) : sameStore (showBlank w) w.
Proof using Type.
  unfold showBlank.
  eapply sameStore_trans;
    [apply sameStore_foldl; intros; apply sameStore_setDisplay|].
  eapply sameStore_trans;
    [apply sameStore_foldl; intros; apply sameStore_setText|].
  apply sameStore_setError.
Qed.

Lemma showRental_sameStore (v : Locals) (w : World) :
  sameStore (showRental v w) w.
Proof using Type.
  unfold showRental. destruct (shouldShowTargetPrice v); repeat split.
Qed.

Lemma showNegotiation_sameStore (v : Locals) (w : World) :
  sameStore (showNegotiation v w) w.
Proof using Type. repeat split. Qed.

Lemma calculate_valid (w : World) :
  invalid (parseInputs (readInputs w)) = false ->
  exists w1, calculate w = saveData w1 /\ sameStore w1 w.
Proof using Type.
  intros HV. unfold calculate. cbv zeta. rewrite HV.
  eexists. split; [reflexivity|].
  set (v := parseInputs (readInputs w)).
  repeat match goal with
         | |- sameStore ?a ?a => apply sameStore_refl
         | |- sameStore (if ?c then _ else _) _ => destruct c
         | |- sameStore (showNegotiation _ _) _ =>
             eapply sameStore_trans; [apply showNegotiation_sameStore|]
         | |- sameStore (showRental _ _) _ =>
             eapply sameStore_trans; [apply showRental_sameStore|]
         | |- sameStore (setDisplay _ _ _) _ =>
             eapply sameStore_trans; [apply sameStore_setDisplay|]
         | |- sameStore (setClass _ _ _) _ =>
             eapply sameStore_trans; [apply sameStore_setClass|]
         | |- sameStore (setText _ _ _) _ =>
             eapply sameStore_trans; [apply sameStore_setText|]
         | |- sameStore (setError _ _) _ =>
             eapply sameStore_trans; [apply sameStore_setError|]
         end.
Qed.

(** C8.  A recomputation on a valid input ends with one [saveData]: it
    appends to the history of [setItem] exactly one write per input id,
    each with the text of that input, and leaves every other key of the
    store alone; a recomputation on an invalid input changes neither the
    store nor its history. *)
Theorem store_written_once_when_valid (w : World) :
  if invalid (parseInputs (readInputs w))
  then localStorage (calculate w) = localStorage w
       /\ setItemLog (calculate w) = setItemLog w
  else setItemLog (calculate w)
       = setItemLog w ++ map (fun id => (id, valueOf w id)) inputIds
       /\ NoDup inputIds
       /\ (forall id, id ∈ inputIds ->
             localStorage (calculate w) !! id = Some (valueOf w id))
       /\ (forall id, id ∉ inputIds ->
             localStorage (calculate w) !! id = localStorage w !! id).
Proof using Type.
  destruct (invalid (parseInputs (readInputs w))) eqn:HV.
  - unfold calculate. cbv zeta. rewrite HV.
    destruct (showBlank_sameStore w) as (_ & Hl & Hg). split; assumption.
  - destruct (calculate_valid w HV) as (w1 & -> & Hs).
    destruct (saveData_sameStore w1 w Hs) as [Hg Hl].
    rewrite Hg, Hl. split; [apply saveData_log|].
    split; [apply inputIds_NoDup|].
    split; intros id Hid;
      [now apply saveData_written | now apply saveData_other].
Qed.

End PersistenceOfCalculate.

Example sample_page_saved :
  setItemLog (@calculate sampleHost (samplePage "12000"))
  = [("prix", "12000"); ("loyer", "800"); ("taux", "12"); ("duree", "12");
     ("salaire", "3000"); ("mensualiteActuel", "200");
     ("endettementMax", "35"); ("loyerPrisEnCompte", "70")]%string
  /\ errorDisplay (@calculate sampleHost (samplePage "12000")) = "none"%string.
Proof. vm_compute. split; reflexivity. Qed.

Example sample_page_blank :
  setItemLog (@calculate sampleHost (samplePage "")) = []
  /\ localStorage (@calculate sampleHost (samplePage "")) = ∅
  /\ errorDisplay (@calculate sampleHost (samplePage "")) = "block"%string
  /\ textContent (@calculate sampleHost (samplePage "")) !! "mensualite"%string
     = Some "..."%string.
Proof. vm_compute. repeat split; reflexivity. Qed.

(* ================================================================== *)
(** * Further properties of the calculations of script.js *)
(* ================================================================== *)

Lemma mul_fin (a b : Q) : (Fin a * Fin b)%js = Fin (a * b).
Proof. reflexivity. Qed.

Lemma sub_fin (a b : Q) : (Fin a - Fin b)%js = Fin (a + - b).
Proof. reflexivity. Qed.

Lemma add_fin (a b : Q) : (Fin a + Fin b)%js = Fin (a + b).
Proof. reflexivity. Qed.

Lemma growth_inverse (t : Q) (n : Z) :
  0 < t -> (0 < n)%Z ->
  annuityFactor t n == (1 - / growth t n) / rate t.
Proof.
  intros Ht Hn. unfold annuityFactor. rewrite Qpower_opp. reflexivity.
Qed.

Lemma factor_reciprocal (t : Q) (n : Z) :
  0 < t -> (0 < n)%Z ->
  annuityFactor t n * (rate t * growth t n / (growth t n + - 1)) == 1.
Proof.
  intros Ht Hn. rewrite growth_inverse by assumption.
  pose proof (rate_pos t Ht). pose proof (growth_gt_1 t n Ht Hn).
  field. repeat split; lra.
Qed.

(** X1 (in exact arithmetic).  On a valid input [part1] (the present
    value of one unit paid every month) and [facteurPMT] (the payment per
    unit borrowed) are reciprocal. *)
Theorem part1_facteurPMT_reciprocal (r : RawInputs) :
  Valid r ->
  (part1 (parseInputs r) * facteurPMT (parseInputs r))%js =n= Fin 1.
Proof.
  intros HV.
  destruct (valid_locals r HV)
    as (p & l & t & n & s & m & e & k & -> & Hp & Ht & Hn & _).
  rewrite part1_fin, facteurPMT_fin, mul_fin by assumption.
  now apply factor_reciprocal.
Qed.

Lemma part1_facteurPMT_reciprocal_scenario :
  (part1 (parseInputs scenario) * facteurPMT (parseInputs scenario))%js
  =n= Fin 1.
Proof. exact (part1_facteurPMT_reciprocal scenario eq_refl). Defined.

Lemma Qdiv_lt_iff (a b c : Q) : 0 < b -> (a / b < c <-> a < c * b).
Proof.
  intros Hb. split; [|now apply Qlt_shift_div_r].
  intros H. apply (Qmult_lt_compat_r _ _ b Hb) in H.
  assert (E : a / b * b == a) by (field; lra). now rewrite E in H.
Qed.

Lemma Qlt_div_iff (a b c : Q) : 0 < b -> (c < a / b <-> c * b < a).
Proof.
  intros Hb. split; [|now apply Qlt_shift_div_l].
  intros H. apply (Qmult_lt_compat_r _ _ b Hb) in H.
  assert (E : a / b * b == a) by (field; lra). now rewrite E in H.
Qed.

Lemma Qdiv_le_iff (a b c : Q) : 0 < b -> (a / b <= c <-> a <= c * b).
Proof.
  intros Hb. split; [|now apply Qle_shift_div_r].
  intros H. apply (Qmult_le_compat_r _ _ b) in H; [|lra].
  assert (E : a / b * b == a) by (field; lra). now rewrite E in H.
Qed.

Lemma Qle_div_iff (a b c : Q) : 0 < b -> (c <= a / b <-> c * b <= a).
Proof.
  intros Hb. split; [|now apply Qle_shift_div_l].
  intros H. apply (Qmult_le_compat_r _ _ b) in H; [|lra].
  assert (E : a / b * b == a) by (field; lra). now rewrite E in H.
Qed.

Section AcceptablePrice.

Variables (p l t : Q) (n : Z) (s m e k : Q).
Hypothesis Hp : 0 < p.
Hypothesis Ht : 0 < t.
Hypothesis Hn : (0 < n)%Z.

Let v := finiteLocals p l t n s m e k.
Let F := rate t * growth t n / (growth t n + - 1).
Let M := e / 100 * (l + s) + - m.

Lemma facteurPMT_positive : (facteurPMT v > Fin 0)%js = true.
Proof using Ht Hn.
  unfold v. rewrite facteurPMT_fin by assumption.
  apply gt_fin. now apply facteur_pos.
Qed.

Lemma prixAcceptable_fin :
  0 < M -> prixAcceptable v = Fin (M / F).
Proof using Ht Hn.
  intros HM. unfold prixAcceptable.
  rewrite facteurPMT_positive. unfold v at 1 2.
  rewrite mensualiteCible_fin. fold M.
  assert (E : (Fin M > Fin 0)%js = true) by now apply gt_fin.
  rewrite E. cbn [andb]. unfold v. rewrite facteurPMT_fin by assumption.
  apply div_fin. pose proof (facteur_pos t n Ht Hn). fold F. unfold F. lra.
Qed.

Lemma prixAcceptable_is_fin : exists a, prixAcceptable v = Fin a /\ 0 <= a.
Proof using Ht Hn.
  destruct (Qlt_le_dec 0 M) as [HM | HM].
  - exists (M / F). split; [now apply prixAcceptable_fin|].
    pose proof (facteur_pos t n Ht Hn) as HF. fold F in HF.
    apply Qle_shift_div_l; [exact HF | lra].
  - exists 0. split; [|lra]. apply prixAcceptable_fallback.
    unfold M in HM. lra.
Qed.

Lemma negotiation_iff_payment_exceeds_target :
  isNegotiationRequired v = true <-> M < p * F.
Proof using Hp Ht Hn.
  pose proof (facteur_pos t n Ht Hn) as HF. fold F in HF.
  unfold isNegotiationRequired. simpl prix.
  destruct (Qlt_le_dec 0 M) as [HM | HM].
  - rewrite prixAcceptable_fin by assumption. rewrite gt_fin.
    now apply Qdiv_lt_iff.
  - unfold v. rewrite prixAcceptable_fallback by (unfold M in HM; lra).
    rewrite gt_fin. split; [|intros _; exact Hp].
    intros _. assert (0 < p * F) by (apply Qmult_lt_0_compat; assumption).
    lra.
Qed.

Lemma endettementTotalTaux_fin :
  0 < l + s -> endettementTotalTaux v = Fin ((p * F + m) / (l + s)).
Proof using Ht Hn.
  intros HD. unfold endettementTotalTaux, denominateurDette. simpl loyer.
  simpl salaire. rewrite add_fin.
  assert (E : (Fin (l + s) > Fin 0)%js = true) by now apply gt_fin.
  rewrite E. unfold v. rewrite mensualiteProjet_fin by assumption.
  simpl mensualiteActuel. rewrite add_fin. apply div_fin. lra.
Qed.

End AcceptablePrice.

(** X2 (in exact arithmetic).  Where the acceptable monthly payment
    [mensualiteCible] is positive, the acceptable price is the capital
    whose monthly payment is exactly that amount. *)
Theorem acceptable_price_payment (r : RawInputs) :
  Valid r ->
  (mensualiteCible (parseInputs r) > Fin 0)%js = true ->
  (prixAcceptable (parseInputs r) * facteurPMT (parseInputs r))%js
  =n= mensualiteCible (parseInputs r).
Proof.
  intros HV.
  destruct (valid_locals r HV)
    as (p & l & t & n & s & m & e & k & -> & Hp & Ht & Hn & _).
  rewrite mensualiteCible_fin. intros HM. apply gt_fin in HM.
  rewrite prixAcceptable_fin, facteurPMT_fin, mul_fin by assumption.
  pose proof (facteur_pos t n Ht Hn) as HF. cbn [JS.num_eq].
  set (F := rate t * growth t n / (growth t n + - 1)) in *.
  field. lra.
Qed.

Lemma acceptable_price_payment_scenario :
  (prixAcceptable (parseInputs scenario) * facteurPMT (parseInputs scenario))%js
  =n= mensualiteCible (parseInputs scenario).
Proof. exact (acceptable_price_payment scenario eq_refl eq_refl). Defined.

(** X3 (in exact arithmetic).  On a valid input with some income or
    rent, negotiation is required exactly when the total debt ratio
    [endettementTotalTaux] exceeds the acceptable ratio [endettementMax]. *)
Theorem negotiation_iff_debt_ratio_exceeded (r : RawInputs) :
  Valid r ->
  (denominateurDette (parseInputs r) > Fin 0)%js = true ->
  isNegotiationRequired (parseInputs r)
  = (endettementTotalTaux (parseInputs r) > endettementMax (parseInputs r))%js.
Proof.
  intros HV.
  destruct (valid_locals r HV)
    as (p & l & t & n & s & m & e & k & -> & Hp & Ht & Hn & _).
  unfold denominateurDette at 1. simpl loyer. simpl salaire.
  rewrite add_fin. intros HD. apply gt_fin in HD.
  apply eq_true_iff_eq.
  rewrite negotiation_iff_payment_exceeds_target by assumption.
  rewrite endettementTotalTaux_fin by assumption. simpl endettementMax.
  rewrite gt_fin, Qlt_div_iff by assumption. split; intros H; lra.
Qed.

Lemma negotiation_iff_debt_ratio_exceeded_scenario :
  isNegotiationRequired (parseInputs scenario)
  = (endettementTotalTaux (parseInputs scenario)
     > endettementMax (parseInputs scenario))%js.
Proof.
  exact (negotiation_iff_debt_ratio_exceeded scenario eq_refl eq_refl).
Defined.

Section TargetPrice.

Variables (p l t : Q) (n : Z) (s m e k : Q).
Hypothesis Hp : 0 < p.
Hypothesis Ht : 0 < t.
Hypothesis Hn : (0 < n)%Z.

Let v := finiteLocals p l t n s m e k.
Let F := rate t * growth t n / (growth t n + - 1).
Let A := annuityFactor t n.

Lemma rendementSouhaite_positive :
  0 < e -> 0 < 12 / (e / 100 * A) * 100.
Proof using Ht Hn.
  intros He. pose proof (part1_pos t n Ht Hn) as HA. fold A in HA.
  assert (0 < e / 100) by (apply Qlt_shift_div_l; lra).
  assert (0 < e / 100 * A) by (apply Qmult_lt_0_compat; assumption).
  assert (0 < 12 / (e / 100 * A)) by (apply Qlt_shift_div_l; lra).
  lra.
Qed.

Lemma prixCibleRendement_fin :
  0 < e -> 0 < l ->
  prixCibleRendement v = Fin (l * 12 / (12 / (e / 100 * A) * 100 / 100)).
Proof using Ht Hn.
  intros He Hl. pose proof (rendementSouhaite_positive He) as Hq.
  unfold prixCibleRendement, v.
  rewrite rendementSouhaite_fin by (assumption || lra). fold A.
  set (q := 12 / (e / 100 * A) * 100) in *.
  assert (E1 : (Fin q > Fin 0)%js = true) by now apply gt_fin.
  assert (E2 : (loyer (finiteLocals p l t n s m e k) > Fin 0)%js = true)
    by now apply gt_fin.
  rewrite E1, E2. cbn [andb]. simpl loyer.
  change (Fin q / Fin 100)%js with (Fin (q / 100)).
  rewrite mul_fin.
  assert (Hq100 : 0 < q / 100) by (apply Qlt_shift_div_l; lra).
  apply div_fin. lra.
Qed.

Lemma target_price_value :
  0 < e ->
  l * 12 / (12 / (e / 100 * A) * 100 / 100) == l * (e / 100) * A.
Proof using Ht Hn.
  intros He. pose proof (part1_pos t n Ht Hn) as HA. fold A in HA.
  assert (HE : 0 < e / 100) by (apply Qlt_shift_div_l; lra).
  set (E := e / 100) in *. field. split; lra.
Qed.

Lemma target_price_times_factor :
  0 < e -> l * 12 / (12 / (e / 100 * A) * 100 / 100) * F == e / 100 * l.
Proof using Ht Hn.
  intros He. rewrite target_price_value by assumption.
  pose proof (factor_reciprocal t n Ht Hn) as HAF. fold A F in HAF.
  assert (E : l * (e / 100) * A * F == l * (e / 100) * (A * F)) by ring.
  rewrite E, HAF. ring.
Qed.

Lemma endettementProjetSeulTaux_fin :
  0 < l -> endettementProjetSeulTaux v = Fin (p * F / l).
Proof using Ht Hn.
  intros Hl. unfold endettementProjetSeulTaux.
  assert (E : (loyer v > Fin 0)%js = true) by now apply gt_fin.
  rewrite E. unfold v. rewrite mensualiteProjet_fin by assumption.
  apply div_fin. lra.
Qed.

(** The target price is a finite, non-negative number on every valid
    input, whatever the acceptable ratio. *)
Lemma prixCibleRendement_is_fin :
  exists c, prixCibleRendement v = Fin c /\ 0 <= c.
Proof using Ht Hn.
  unfold prixCibleRendement.
  destruct (loyer v > Fin 0)%js eqn:El;
    [|exists 0; rewrite andb_false_r; split; [reflexivity | lra]].
  apply gt_fin in El. rewrite andb_true_r.
  destruct (Qeq_dec e 0) as [He | He].
  - unfold v. rewrite rendementSouhaite_zero_ratio by assumption.
    exists 0. split; [reflexivity | lra].
  - unfold v. rewrite rendementSouhaite_fin by assumption. fold A.
    set (q := 12 / (e / 100 * A) * 100).
    destruct (Fin q > Fin 0)%js eqn:Eq; [|exists 0; split; [reflexivity|lra]].
    apply gt_fin in Eq. simpl loyer.
    change (Fin q / Fin 100)%js with (Fin (q / 100)). rewrite mul_fin.
    assert (Hq100 : 0 < q / 100) by (apply Qlt_shift_div_l; lra).
    exists (l * 12 / (q / 100)). split; [apply div_fin; lra|].
    apply Qle_shift_div_l; lra.
Qed.

End TargetPrice.

(** X4 (in exact arithmetic).  With a positive acceptable ratio and a
    positive rent, the target price is the capital whose monthly payment
    is [endettementMax] times the rent. *)
Theorem target_price_payment (r : RawInputs) :
  Valid r ->
  (endettementMax (parseInputs r) > Fin 0)%js = true ->
  (loyer (parseInputs r) > Fin 0)%js = true ->
  (prixCibleRendement (parseInputs r) * facteurPMT (parseInputs r))%js
  =n= (endettementMax (parseInputs r) * loyer (parseInputs r))%js.
Proof.
  intros HV.
  destruct (valid_locals r HV)
    as (p & l & t & n & s & m & e & k & -> & Hp & Ht & Hn & _).
  simpl endettementMax. simpl loyer. intros He Hl.
  apply gt_fin in He, Hl.
  assert (He' : 0 < e).
  { apply Qlt_div_iff in He; [lra | reflexivity]. }
  rewrite prixCibleRendement_fin, facteurPMT_fin, !mul_fin by assumption.
  cbn [JS.num_eq]. now apply target_price_times_factor.
Qed.

Lemma target_price_payment_scenario :
  (prixCibleRendement (parseInputs scenario)
   * facteurPMT (parseInputs scenario))%js
  =n= (endettementMax (parseInputs scenario)
       * loyer (parseInputs scenario))%js.
Proof. exact (target_price_payment scenario eq_refl eq_refl eq_refl). Defined.

(** X5 (in exact arithmetic).  With a positive acceptable ratio and a
    positive rent, the target price is shown exactly when the debt ratio
    of the project alone [endettementProjetSeulTaux] reaches the
    acceptable ratio. *)
Theorem target_price_shown_iff_project_ratio (r : RawInputs) :
  Valid r ->
  (endettementMax (parseInputs r) > Fin 0)%js = true ->
  (loyer (parseInputs r) > Fin 0)%js = true ->
  showTargetPrice (parseInputs r)
  = (endettementProjetSeulTaux (parseInputs r)
     >= endettementMax (parseInputs r))%js.
Proof.
  intros HV.
  destruct (valid_locals r HV)
    as (p & l & t & n & s & m & e & k & -> & Hp & Ht & Hn & _).
  intros He Hl. unfold showTargetPrice, isRentalProject. rewrite Hl.
  unfold shouldShowTargetPrice.
  simpl endettementMax in *. simpl loyer in *. simpl prix.
  apply gt_fin in He, Hl.
  assert (He' : 0 < e).
  { apply Qlt_div_iff in He; [lra | reflexivity]. }
  rewrite prixCibleRendement_fin, endettementProjetSeulTaux_fin by assumption.
  apply eq_true_iff_eq. rewrite !ge_fin.
  pose proof (facteur_pos t n Ht Hn) as HF.
  pose proof (target_price_times_factor l t n e Ht Hn He') as HT.
  set (F := rate t * growth t n / (growth t n + - 1)) in *.
  set (T := l * 12 / (12 / (e / 100 * annuityFactor t n) * 100 / 100)) in *.
  rewrite Qle_div_iff by assumption. split; intros H.
  - rewrite <- HT. apply Qmult_le_compat_r; lra.
  - rewrite <- HT in H. apply Qmult_le_r in H; assumption.
Qed.

Lemma target_price_shown_iff_project_ratio_scenario :
  showTargetPrice (parseInputs scenario)
  = (endettementProjetSeulTaux (parseInputs scenario)
     >= endettementMax (parseInputs scenario))%js.
Proof.
  exact (target_price_shown_iff_project_ratio scenario
           eq_refl eq_refl eq_refl).
Defined.

Section Reductions.

Variables (p l t : Q) (n : Z) (s m e k : Q).
Hypothesis Hp : 0 < p.
Hypothesis Ht : 0 < t.
Hypothesis Hn : (0 < n)%Z.

Let v := finiteLocals p l t n s m e k.

Lemma reductionMinimum_fin (a : Q) :
  prixAcceptable v = Fin a ->
  reductionMinimum v = Fin ((p + - a) / p * 100).
Proof using Hp.
  intros Ea. unfold reductionMinimum. rewrite Ea.
  unfold v. rewrite prix_positive by assumption. simpl prix.
  rewrite sub_fin, div_fin by lra. reflexivity.
Qed.

Lemma reductionCible_fin (c : Q) :
  prixCibleRendement v = Fin c ->
  reductionCible v = Fin ((p + - c) / p * 100).
Proof using Hp.
  intros Ec. unfold reductionCible. rewrite Ec.
  unfold v. rewrite prix_positive by assumption. simpl prix.
  rewrite sub_fin, div_fin by lra. reflexivity.
Qed.

Lemma reduction_applied (a : Q) :
  p * (1 + - ((p + - a) / p * 100 / 100)) == a.
Proof using Hp. field. lra. Qed.

Lemma reduction_bounds (a : Q) :
  0 <= a -> a < p ->
  0 < (p + - a) / p * 100 /\ (p + - a) / p * 100 <= 100.
Proof using Hp.
  intros Ha Hap.
  assert (H1 : 0 < (p + - a) / p) by (apply Qlt_shift_div_l; lra).
  assert (H2 : (p + - a) / p <= 1) by (apply Qle_shift_div_r; lra).
  split; lra.
Qed.

End Reductions.

(** X6 (in exact arithmetic).  On a valid input, taking the minimum
    reduction off the price gives the acceptable price, and taking the
    target reduction off the price gives the target price. *)
Theorem reductions_lead_to_prices (r : RawInputs) :
  Valid r ->
  let v := parseInputs r in
  (prix v * (Fin 1 - reductionMinimum v / Fin 100))%js =n= prixAcceptable v
  /\ (prix v * (Fin 1 - reductionCible v / Fin 100))%js
     =n= prixCibleRendement v.
Proof.
  intros HV.
  destruct (valid_locals r HV)
    as (p & l & t & n & s & m & e & k & -> & Hp & Ht & Hn & _).
  cbv zeta.
  destruct (prixAcceptable_is_fin p l t n s m e k Ht Hn) as (a & Ea & _).
  destruct (prixCibleRendement_is_fin p l t n s m e k Ht Hn) as (c & Ec & _).
  rewrite (reductionMinimum_fin p l t n s m e k Hp a Ea).
  rewrite (reductionCible_fin p l t n s m e k Hp c Ec).
  rewrite Ea, Ec. simpl prix.
  change (Fin ((p + - a) / p * 100) / Fin 100)%js
    with (Fin ((p + - a) / p * 100 / 100)).
  change (Fin ((p + - c) / p * 100) / Fin 100)%js
    with (Fin ((p + - c) / p * 100 / 100)).
  rewrite !sub_fin, !mul_fin. cbn [JS.num_eq].
  split; now apply reduction_applied.
Qed.

Lemma reductions_lead_to_prices_scenario :
  let v := parseInputs scenario in
  (prix v * (Fin 1 - reductionMinimum v / Fin 100))%js =n= prixAcceptable v
  /\ (prix v * (Fin 1 - reductionCible v / Fin 100))%js
     =n= prixCibleRendement v.
Proof. exact (reductions_lead_to_prices scenario eq_refl). Defined.

(** X7.  Whenever a reduction is displayed it lies in [0, 100]: the
    minimum reduction is in ]0, 100] when negotiation is required, the
    target reduction in [0, 100] when the target price is shown; the
    [Math.max(0, _)] of the display never changes it. *)
Theorem displayed_reductions_bounded (r : RawInputs) :
  Valid r ->
  let v := parseInputs r in
  (isNegotiationRequired v = true ->
     (reductionMinimum v > Fin 0)%js = true
     /\ (reductionMinimum v <= Fin 100)%js = true
     /\ JS.max (Fin 0) (reductionMinimum v) = reductionMinimum v)
  /\ (showTargetPrice v = true ->
        (reductionCible v >= Fin 0)%js = true
        /\ (reductionCible v <= Fin 100)%js = true
        /\ JS.max (Fin 0) (reductionCible v) =n= reductionCible v).
Proof.
  intros HV.
  destruct (valid_locals r HV)
    as (p & l & t & n & s & m & e & k & -> & Hp & Ht & Hn & _).
  cbv zeta.
  destruct (prixAcceptable_is_fin p l t n s m e k Ht Hn) as (a & Ea & Ha).
  destruct (prixCibleRendement_is_fin p l t n s m e k Ht Hn) as (c & Ec & Hc).
  rewrite (reductionMinimum_fin p l t n s m e k Hp a Ea).
  rewrite (reductionCible_fin p l t n s m e k Hp c Ec).
  split.
  - unfold isNegotiationRequired. rewrite Ea. simpl prix. intros Hlt.
    apply gt_fin in Hlt.
    destruct (reduction_bounds p Hp a Ha Hlt) as [H1 H2].
    assert (E : (Fin ((p + - a) / p * 100) > Fin 0)%js = true)
      by now apply gt_fin.
    split; [exact E|]. split; [now apply Qle_bool_iff|].
    unfold JS.max. unfold JS.gt in E. now rewrite E.
  - unfold showTargetPrice, isRentalProject, shouldShowTargetPrice.
    destruct (loyer _ > Fin 0)%js; [|discriminate].
    rewrite Ec. simpl prix. intros Hle. apply ge_fin in Hle.
    assert (H1 : 0 <= (p + - c) / p) by (apply Qle_shift_div_l; lra).
    assert (H2 : (p + - c) / p <= 1) by (apply Qle_shift_div_r; lra).
    split; [apply ge_fin; lra|]. split; [apply Qle_bool_iff; lra|].
    unfold JS.max.
    destruct (JS.lt (Fin 0) (Fin ((p + - c) / p * 100))) eqn:E;
      [reflexivity|].
    apply Qltb_ge in E. cbn [JS.num_eq]. lra.
Qed.

Lemma displayed_reductions_bounded_rentFree :
  (reductionMinimum (parseInputs rentFree) > Fin 0)%js = true
  /\ (reductionMinimum (parseInputs rentFree) <= Fin 100)%js = true
  /\ JS.max (Fin 0) (reductionMinimum (parseInputs rentFree))
     = reductionMinimum (parseInputs rentFree).
Proof.
  exact (proj1 (displayed_reductions_bounded rentFree eq_refl) eq_refl).
Defined.

Lemma isFinite_fin (x : num) : (exists q, x = Fin q) -> isFinite x = true.
Proof. now intros (q & ->). Qed.

Section Finiteness.

Variables (p l t : Q) (n : Z) (s m e k : Q).
Hypothesis Hp : 0 < p.
Hypothesis Ht : 0 < t.
Hypothesis Hn : (0 < n)%Z.

Let v := finiteLocals p l t n s m e k.
Let F := rate t * growth t n / (growth t n + - 1).

Lemma cashflow_fin : cashflow v = Fin (l + - (p * F)).
Proof using Ht Hn.
  unfold cashflow, v. now rewrite mensualiteProjet_fin by assumption.
Qed.

Lemma endettementActuelTaux_finite : isFinite (endettementActuelTaux v) = true.
Proof using Type.
  unfold endettementActuelTaux. simpl salaire. simpl mensualiteActuel.
  destruct (Fin s > Fin 0)%js eqn:E; [|reflexivity].
  apply gt_fin in E. now rewrite div_fin by lra.
Qed.

Lemma endettementProjetSeulTaux_finite :
  isFinite (endettementProjetSeulTaux v) = true.
Proof using Ht Hn.
  unfold endettementProjetSeulTaux.
  destruct (loyer v > Fin 0)%js eqn:E; [|reflexivity].
  apply gt_fin in E. unfold v.
  rewrite mensualiteProjet_fin by assumption. simpl loyer.
  now rewrite div_fin by lra.
Qed.

Lemma endettementTotalTaux_finite :
  isFinite (endettementTotalTaux v) = true.
Proof using Ht Hn.
  unfold endettementTotalTaux.
  destruct (denominateurDette v > Fin 0)%js eqn:E; [|reflexivity].
  unfold denominateurDette in *. simpl loyer in *. simpl salaire in *.
  rewrite add_fin in *. apply gt_fin in E. unfold v.
  rewrite mensualiteProjet_fin by assumption. simpl mensualiteActuel.
  rewrite add_fin. now rewrite div_fin by lra.
Qed.

Lemma capaciteMensualite_finite : isFinite (capaciteMensualite v) = true.
Proof using Ht Hn.
  unfold capaciteMensualite, v. now rewrite mensualiteProjet_fin by assumption.
Qed.

Lemma rendementBrut_finite : isFinite (rendementBrut v) = true.
Proof using Hp.
  unfold rendementBrut, rendementBrutPour. simpl prix. simpl loyer.
  destruct ((Fin p > Fin 0)%js && (Fin l > Fin 0)%js); [|reflexivity].
  rewrite mul_fin. now rewrite div_fin by lra.
Qed.

Lemma derived_finite :
  forallb isFinite (numbersButDesiredYield (derive v)) = true.
Proof using Hp Ht Hn.
  destruct (prixAcceptable_is_fin p l t n s m e k Ht Hn) as (a & Ea & _).
  destruct (prixCibleRendement_is_fin p l t n s m e k Ht Hn) as (c & Ec & _).
  unfold numbersButDesiredYield, derive.
  cbn [forallb r_mensualite r_endettementActuel r_endettementProjetSeul
       r_endettementTotal r_capacite r_capaciteLocative r_capaciteMensualite
       r_cashflow r_rendement r_prixCible r_reductionCible r_prixAcceptable
       r_reductionMinimum].
  fold v.
  rewrite endettementActuelTaux_finite, endettementProjetSeulTaux_finite,
    endettementTotalTaux_finite, capaciteMensualite_finite,
    rendementBrut_finite, cashflow_fin.
  unfold v.
  rewrite (reductionMinimum_fin p l t n s m e k Hp a Ea).
  rewrite (reductionCible_fin p l t n s m e k Hp c Ec).
  rewrite Ea, Ec, mensualiteProjet_fin by assumption.
  reflexivity.
Qed.

Lemma rendementSouhaite_finite :
  isFinite (rendementSouhaite v) = negb (isZero (endettementMax v)).
Proof using Ht Hn.
  simpl endettementMax. unfold isZero.
  destruct (Qeq_bool (e / 100) 0) eqn:E.
  - apply Qeq_bool_iff in E.
    assert (He : e == 0).
    { unfold Qdiv in E. apply Qmult_integral in E.
      destruct E as [E | E]; [exact E | vm_compute in E; discriminate E]. }
    unfold v. now rewrite rendementSouhaite_zero_ratio by assumption.
  - apply Qeq_bool_neq in E.
    assert (He : ~ e == 0) by (intros He; apply E; rewrite He; reflexivity).
    unfold v. now rewrite rendementSouhaite_fin by assumption.
Qed.

End Finiteness.

(** X8.  With a positive rent the cash flow is non-negative (and shown as
    positive) exactly when the debt ratio of the project alone does not
    exceed 1. *)
Theorem cashflow_sign_iff_project_ratio (r : RawInputs) :
  Valid r ->
  (loyer (parseInputs r) > Fin 0)%js = true ->
  (cashflow (parseInputs r) >= Fin 0)%js
  = (endettementProjetSeulTaux (parseInputs r) <= Fin 1)%js.
Proof.
  intros HV.
  destruct (valid_locals r HV)
    as (p & l & t & n & s & m & e & k & -> & Hp & Ht & Hn & _).
  simpl loyer. intros Hl. apply gt_fin in Hl.
  rewrite cashflow_fin, endettementProjetSeulTaux_fin by assumption.
  apply eq_true_iff_eq. rewrite ge_fin.
  change ((Fin ?a <= Fin ?b)%js = true) with (Qle_bool a b = true).
  rewrite Qle_bool_iff, Qdiv_le_iff by assumption.
  split; intros H; lra.
Qed.

Lemma cashflow_sign_iff_project_ratio_scenario :
  (cashflow (parseInputs scenario) >= Fin 0)%js
  = (endettementProjetSeulTaux (parseInputs scenario) <= Fin 1)%js.
Proof.
  exact (cashflow_sign_iff_project_ratio scenario eq_refl eq_refl).
Defined.

(** X9 (in exact arithmetic).  No formula of a valid input divides zero
    by zero or subtracts infinities: every number of the result is finite,
    except the desired yield, which is finite exactly when the acceptable
    ratio is not 0 and is never NaN. *)
Theorem derived_numbers_finite (r : RawInputs) (d : DerivedResult) :
  engine r = Some d ->
  forallb isFinite (numbersButDesiredYield d) = true
  /\ isFinite (r_rendementSouhaite d)
     = negb (isZero (endettementMax (parseInputs r)))
  /\ JS.isNaN (r_rendementSouhaite d) = false.
Proof.
  intros E. apply engine_Some in E. destruct E as [HV ->].
  destruct (valid_locals r HV)
    as (p & l & t & n & s & m & e & k & -> & Hp & Ht & Hn & _).
  split; [now apply derived_finite|].
  cbn [r_rendementSouhaite derive].
  pose proof (rendementSouhaite_finite p l t n s m e k Ht Hn) as HF.
  split; [exact HF|].
  destruct (Qeq_dec e 0) as [He | He].
  - now rewrite rendementSouhaite_zero_ratio by assumption.
  - now rewrite rendementSouhaite_fin by assumption.
Qed.

Lemma derived_numbers_finite_scenario :
  forallb isFinite (numbersButDesiredYield (derive (parseInputs scenario)))
  = true
  /\ isFinite (r_rendementSouhaite (derive (parseInputs scenario)))
     = negb (isZero (endettementMax (parseInputs scenario)))
  /\ JS.isNaN (r_rendementSouhaite (derive (parseInputs scenario))) = false.
Proof.
  exact (derived_numbers_finite scenario (derive (parseInputs scenario))
           eq_refl).
Defined.

Lemma discount_bernoulli (y : Q) (k : nat) :
  0 <= y -> y <= 1 ->
  0 <= y ^ Z.of_nat k /\ y ^ Z.of_nat k <= 1
  /\ 1 - y ^ Z.of_nat k <= inject_Z (Z.of_nat k) * (1 - y).
Proof.
  intros H0 H1. induction k as [|k (IH0 & IH1 & IH)].
  - change (y ^ Z.of_nat 0) with 1. change (inject_Z (Z.of_nat 0)) with 0.
    repeat split; lra.
  - rewrite Nat2Z.inj_succ, <- Z.add_1_r.
    rewrite Qpower_plus' by lia. rewrite inject_Z_plus.
    change (y ^ 1) with y. change (inject_Z 1) with 1.
    set (z := y ^ Z.of_nat k) in *. set (c := inject_Z (Z.of_nat k)) in *.
    repeat split; nra.
Qed.

Lemma annuityFactor_lt_term (t : Q) (n : Z) :
  0 < t -> (0 < n)%Z -> annuityFactor t n < inject_Z n.
Proof.
  intros Ht Hn. pose proof (rate_pos t Ht) as Hr.
  unfold annuityFactor. apply Qlt_shift_div_r; [exact Hr|].
  rewrite Qpower_opp, <- Qinv_power.
  set (y := / (1 + rate t)).
  assert (Hy0 : 0 < y) by (apply Qinv_lt_0_compat; lra).
  assert (E : y * (1 + rate t) == 1) by (unfold y; field; lra).
  assert (Hyr : 0 < y * rate t) by (apply Qmult_lt_0_compat; assumption).
  assert (Hy2 : y < 1) by lra.
  assert (Hry : 0 < rate t * (1 - y)) by (apply Qmult_lt_0_compat; lra).
  assert (Hy1 : 1 - y < rate t) by lra.
  destruct (discount_bernoulli y (Z.to_nat n)) as (_ & _ & HB); [lra.. |].
  rewrite Z2Nat.id in HB by lia.
  assert (Hn1 : 1 <= inject_Z n).
  { change 1 with (inject_Z 1). rewrite <- Zle_Qle. lia. }
  nra.
Qed.

(** X10 (in exact arithmetic).  On a valid input the monthly payment
    exceeds the interest of one month on the price, and the payments of
    the whole term add up to more than the price. *)
Theorem payment_covers_interest_and_capital (r : RawInputs) :
  Valid r ->
  let v := parseInputs r in
  (mensualiteProjet v > prix v * tauxMensuel v)%js = true
  /\ (JS.toNum (nbMensualites v) * mensualiteProjet v > prix v)%js = true.
Proof.
  intros HV.
  destruct (valid_locals r HV)
    as (p & l & t & n & s & m & e & k & -> & Hp & Ht & Hn & _).
  cbv zeta. rewrite mensualiteProjet_fin by assumption.
  simpl prix. simpl nbMensualites. simpl JS.toNum.
  change (tauxMensuel _) with (Fin (rate t)). rewrite !mul_fin, !gt_fin.
  pose proof (rate_pos t Ht) as Hr.
  pose proof (growth_gt_1 t n Ht Hn) as Hg.
  pose proof (facteur_pos t n Ht Hn) as HF.
  pose proof (factor_reciprocal t n Ht Hn) as HAF.
  pose proof (annuityFactor_lt_term t n Ht Hn) as HA.
  assert (HFr : rate t < rate t * growth t n / (growth t n + - 1)).
  { apply Qlt_div_iff; [lra | nra]. }
  set (F := rate t * growth t n / (growth t n + - 1)) in *.
  set (A := annuityFactor t n) in *. set (N := inject_Z n) in *.
  split; [nra|].
  assert (1 < N * F) by nra. nra.
Qed.

Lemma payment_covers_interest_and_capital_scenario :
  let v := parseInputs scenario in
  (mensualiteProjet v > prix v * tauxMensuel v)%js = true
  /\ (JS.toNum (nbMensualites v) * mensualiteProjet v > prix v)%js = true.
Proof. exact (payment_covers_interest_and_capital scenario eq_refl). Defined.

(* ================================================================== *)
(** * Further properties of the page of script.js *)
(* ================================================================== *)

Lemma applyUpdates_lookup
    (us : list (string * string)) (m : gmap string string) (i : string) :
  applyUpdates us m !! i
  = match lastWrite i us with Some y => Some y | None => m !! i end.
Proof.
  unfold applyUpdates. revert m.
  induction us as [|u us IH]; intros m; [reflexivity|].
  cbn [foldl lastWrite]. rewrite IH.
  destruct (lastWrite i us); [reflexivity|].
  destruct (decide (fst u = i)) as [<- | Hne].
  - by rewrite lookup_insert_eq.
  - by rewrite lookup_insert_ne.
Qed.

Lemma applyUpdates_twice
    (us : list (string * string)) (m : gmap string string) :
  applyUpdates us (applyUpdates us m) = applyUpdates us m.
Proof.
  apply map_eq. intros i. rewrite !applyUpdates_lookup.
  by destruct (lastWrite i us).
Qed.

Lemma saveData_page (w : World) :
  errorDisplay (saveData w) = errorDisplay w
  /\ textContent (saveData w) = textContent w
  /\ className (saveData w) = className w
  /\ display (saveData w) = display w
  /\ inputValue (saveData w) = inputValue w.
Proof.
  unfold saveData. generalize inputIds as ids. intros ids. revert w.
  induction ids as [|a ids IH]; intros w; cbn [foldl]; [done|].
  destruct (IH (setItem a (valueOf w a) w)) as (-> & -> & -> & -> & ->).
  done.
Qed.

Lemma foldl_setText (s : string) (keys : list string) (w : World) :
  let w' := foldl (fun w key => setText key s w) w keys in
  textContent w' = applyUpdates (map (fun key => (key, s)) keys) (textContent w)
  /\ display w' = display w /\ errorDisplay w' = errorDisplay w
  /\ className w' = className w /\ inputValue w' = inputValue w.
Proof.
  revert w. induction keys as [|a keys IH]; intros w; cbn [foldl map]; [done|].
  destruct (IH (setText a s w)) as (-> & -> & -> & -> & ->). done.
Qed.

Lemma foldl_setDisplay (s : string) (keys : list string) (w : World) :
  let w' := foldl (fun w key => setDisplay key s w) w keys in
  display w' = applyUpdates (map (fun key => (key, s)) keys) (display w)
  /\ textContent w' = textContent w /\ errorDisplay w' = errorDisplay w
  /\ className w' = className w /\ inputValue w' = inputValue w.
Proof.
  revert w. induction keys as [|a keys IH]; intros w; cbn [foldl map]; [done|].
  destruct (IH (setDisplay a s w)) as (-> & -> & -> & -> & ->). done.
Qed.

Lemma lastWrite_constant (s i : string) (keys : list string) :
  lastWrite i (map (fun key => (key, s)) keys)
  = if decide (i ∈ keys) then Some s else None.
Proof.
  induction keys as [|a keys IH].
  - cbn. destruct (decide (i ∈ [])) as [Hi|]; [|done].
    by apply elem_of_nil in Hi.
  - cbn [map lastWrite fst snd]. rewrite IH.
    destruct (decide (i ∈ keys)) as [Hin | Hout].
    + by rewrite decide_True by (apply elem_of_cons; by right).
    + destruct (decide (a = i)) as [-> | Hne].
      * by rewrite decide_True by (apply elem_of_cons; by left).
      * rewrite decide_False; [done|].
        intros Hi. apply elem_of_cons in Hi. by destruct Hi.
Qed.

Section PageProperties.

Context `{Host}.

Lemma showBlank_page (w : World) :
  errorDisplay (showBlank w) = "block"%string
  /\ textContent (showBlank w)
     = applyUpdates (map (fun key => (key, "..."%string)) outputKeys)
         (textContent w)
  /\ display (showBlank w)
     = applyUpdates (map (fun key => (key, "none"%string)) containerKeys)
         (display w)
  /\ className (showBlank w) = className w
  /\ inputValue (showBlank w) = inputValue w.
Proof using Type.
  unfold showBlank. cbv zeta.
  destruct (foldl_setDisplay "none" containerKeys
              (foldl (fun w key => setText key "..." w)
                 (setError "block" w) outputKeys))
    as (-> & -> & -> & -> & ->).
  destruct (foldl_setText "..." outputKeys (setError "block" w))
    as (-> & -> & -> & -> & ->).
  done.
Qed.

(** X11.  A recomputation on an invalid input shows the error, sets every
    output to [...] and hides every conditional container; it leaves the
    input fields and the colour classes as they were. *)
Theorem invalid_cycle_blanks_page (w : World) :
  invalid (parseInputs (readInputs w)) = true ->
  errorDisplay (calculate w) = "block"%string
  /\ (forall key, key ∈ outputKeys ->
        textContent (calculate w) !! key = Some "..."%string)
  /\ (forall key, key ∈ containerKeys ->
        display (calculate w) !! key = Some "none"%string)
  /\ (forall key, key ∉ outputKeys ->
        textContent (calculate w) !! key = textContent w !! key)
  /\ className (calculate w) = className w
  /\ inputValue (calculate w) = inputValue w.
Proof using Type.
  intros HI. unfold calculate. cbv zeta. rewrite HI.
  destruct (showBlank_page w) as (-> & -> & -> & -> & ->).
  repeat split; intros key Hkey;
    rewrite applyUpdates_lookup, lastWrite_constant.
  - by rewrite decide_True.
  - by rewrite decide_True.
  - by rewrite decide_False.
Qed.

End PageProperties.

Lemma invalid_cycle_blanks_page_sample :
  errorDisplay (@calculate sampleHost (samplePage "")) = "block"%string
  /\ (forall key, key ∈ outputKeys ->
        textContent (@calculate sampleHost (samplePage "")) !! key
        = Some "..."%string).
Proof.
  assert (HI : invalid (parseInputs (@readInputs sampleHost (samplePage "")))
               = true) by (vm_compute; reflexivity).
  destruct (@invalid_cycle_blanks_page sampleHost (samplePage "") HI)
    as (H1 & H2 & _).
  exact (conj H1 H2).
Defined.

(** Reading the fields of a world through a chain of setters. *)
Ltac read_setters :=
  cbv [textContent className display errorDisplay inputValue
       setText setClass setDisplay setError
       applyUpdates foldl app fst snd].

Section ValidCycle.

Context `{Host}.

Lemma calculate_valid_page (w : World) :
  invalid (parseInputs (readInputs w)) = false ->
  let v := parseInputs (readInputs w) in
  errorDisplay (calculate w) = "none"%string
  /\ textContent (calculate w) = applyUpdates (textUpdates v) (textContent w)
  /\ className (calculate w) = applyUpdates (classUpdates v) (className w)
  /\ display (calculate w) = applyUpdates (displayUpdates v) (display w)
  /\ inputValue (calculate w) = inputValue w.
Proof using Type.
  intros HV v. unfold calculate. cbv zeta. rewrite HV. fold v.
  match goal with
  | |- context [saveData ?x] =>
      destruct (saveData_page x) as (-> & -> & -> & -> & ->)
  end.
  unfold textUpdates, classUpdates, displayUpdates, showRental,
    showNegotiation.
  cbv zeta.
  destruct (isRentalProject v), (isNegotiationRequired v),
    (shouldShowTargetPrice v);
    destruct w; read_setters; done.
Qed.

(** X12.  A recomputation on a valid input does not touch what belongs to
    a group it hides: without rent, the rental outputs, the colour of the
    cash flow and the visibility of the two target-price items stay as
    the previous recomputation left them; without negotiation, so do the
    negotiation outputs. *)
Theorem hidden_groups_keep_previous_state (w : World) :
  invalid (parseInputs (readInputs w)) = false ->
  let v := parseInputs (readInputs w) in
  (isRentalProject v = false ->
     (forall key, key ∈ rentalOutputKeys ->
        textContent (calculate w) !! key = textContent w !! key)
     /\ className (calculate w) !! "cashflow"%string
        = className w !! "cashflow"%string
     /\ display (calculate w) !! "itemPrixCible"%string
        = display w !! "itemPrixCible"%string
     /\ display (calculate w) !! "itemReductionCible"%string
        = display w !! "itemReductionCible"%string)
  /\ (isNegotiationRequired v = false ->
        forall key, key ∈ negotiationOutputKeys ->
          textContent (calculate w) !! key = textContent w !! key).
Proof using Type.
  intros HV v.
  destruct (calculate_valid_page w HV) as (_ & -> & -> & -> & _). fold v.
  split.
  - intros Hr. unfold textUpdates, classUpdates, displayUpdates.
    rewrite Hr. repeat split.
    + intros key Hkey. rewrite applyUpdates_lookup.
      unfold rentalOutputKeys in Hkey.
      destruct (isNegotiationRequired v);
        repeat (apply elem_of_cons in Hkey; destruct Hkey as [-> | Hkey]);
        try (by apply elem_of_nil in Hkey); reflexivity.
    + by rewrite applyUpdates_lookup.
    + by rewrite applyUpdates_lookup.
    + by rewrite applyUpdates_lookup.
  - intros Hn key Hkey. unfold textUpdates. rewrite Hn, app_nil_r.
    rewrite applyUpdates_lookup. unfold negotiationOutputKeys in Hkey.
    destruct (isRentalProject v), (shouldShowTargetPrice v);
      repeat (apply elem_of_cons in Hkey; destruct Hkey as [-> | Hkey]);
      try (by apply elem_of_nil in Hkey); reflexivity.
Qed.

(** X13.  After a recomputation on a valid input the error is hidden, the
    four rental containers are shown exactly when the rent is positive,
    the two negotiation containers exactly when negotiation is required,
    and, for a rental project, the two target-price items exactly when the
    price reaches the target price. *)
Theorem valid_cycle_visibility (w : World) :
  invalid (parseInputs (readInputs w)) = false ->
  let v := parseInputs (readInputs w) in
  errorDisplay (calculate w) = "none"%string
  /\ (forall key, key ∈ rentalContainerKeys ->
        display (calculate w) !! key = Some (blockIf (loyer v > Fin 0)%js))
  /\ (forall key, key ∈ negotiationContainerKeys ->
        display (calculate w) !! key
        = Some (blockIf (prix v > prixAcceptable v)%js))
  /\ ((loyer v > Fin 0)%js = true ->
      forall key, key ∈ ["itemPrixCible"; "itemReductionCible"]%string ->
        display (calculate w) !! key
        = Some (flexIf (prix v >= prixCibleRendement v)%js)).
Proof using Type.
  intros HV v.
  destruct (calculate_valid_page w HV) as (-> & _ & _ & -> & _). fold v.
  split; [reflexivity|].
  unfold displayUpdates.
  change (loyer v > Fin 0)%js with (isRentalProject v).
  change (prix v > prixAcceptable v)%js with (isNegotiationRequired v).
  change (prix v >= prixCibleRendement v)%js with (shouldShowTargetPrice v).
  repeat split.
  - intros key Hkey. rewrite applyUpdates_lookup.
    unfold rentalContainerKeys in Hkey.
    destruct (isRentalProject v);
      repeat (apply elem_of_cons in Hkey; destruct Hkey as [-> | Hkey]);
      try (by apply elem_of_nil in Hkey); reflexivity.
  - intros key Hkey. rewrite applyUpdates_lookup.
    unfold negotiationContainerKeys in Hkey.
    destruct (isRentalProject v);
      repeat (apply elem_of_cons in Hkey; destruct Hkey as [-> | Hkey]);
      try (by apply elem_of_nil in Hkey); reflexivity.
  - intros Hr key Hkey. rewrite applyUpdates_lookup, Hr.
    repeat (apply elem_of_cons in Hkey; destruct Hkey as [-> | Hkey]);
      try (by apply elem_of_nil in Hkey); reflexivity.
Qed.

End ValidCycle.

Lemma sample_page_valid :
  invalid (parseInputs (@readInputs sampleHost (samplePage "12000"))) = false.
Proof. vm_compute. reflexivity. Qed.

Lemma hidden_groups_keep_previous_state_sample :
  let w := samplePage "12000" in
  let v := parseInputs (@readInputs sampleHost w) in
  (isRentalProject v = false ->
     (forall key, key ∈ rentalOutputKeys ->
        textContent (@calculate sampleHost w) !! key = textContent w !! key)
     /\ className (@calculate sampleHost w) !! "cashflow"%string
        = className w !! "cashflow"%string
     /\ display (@calculate sampleHost w) !! "itemPrixCible"%string
        = display w !! "itemPrixCible"%string
     /\ display (@calculate sampleHost w) !! "itemReductionCible"%string
        = display w !! "itemReductionCible"%string)
  /\ (isNegotiationRequired v = false ->
        forall key, key ∈ negotiationOutputKeys ->
          textContent (@calculate sampleHost w) !! key = textContent w !! key).
Proof.
  exact (@hidden_groups_keep_previous_state sampleHost
           (samplePage "12000") sample_page_valid).
Defined.

Lemma valid_cycle_visibility_sample :
  errorDisplay (@calculate sampleHost (samplePage "12000")) = "none"%string.
Proof.
  exact (proj1 (@valid_cycle_visibility sampleHost
                  (samplePage "12000") sample_page_valid)).
Defined.

Section Recomputation.

Context `{Host}.

Lemma readInputs_inputValue (a b : World) :
  inputValue a = inputValue b -> readInputs a = readInputs b.
Proof using Type.
  intros E. unfold readInputs, valueOf. now rewrite E.
Qed.

Lemma calculate_invalid (w : World) :
  invalid (parseInputs (readInputs w)) = true -> calculate w = showBlank w.
Proof using Type. intros HV. unfold calculate. cbv zeta. now rewrite HV. Qed.

Lemma calculate_inputValue (w : World) :
  inputValue (calculate w) = inputValue w.
Proof using Type.
  destruct (invalid (parseInputs (readInputs w))) eqn:HV.
  - unfold calculate. cbv zeta. rewrite HV. apply showBlank_page.
  - now apply calculate_valid_page.
Qed.

Lemma calculate_localStorage (w : World) :
  localStorage (calculate w)
  = if invalid (parseInputs (readInputs w)) then localStorage w
    else foldl (fun st id => <[id := valueOf w id]> st)
           (localStorage w) inputIds.
Proof using Type.
  destruct (invalid (parseInputs (readInputs w))) eqn:HV.
  - unfold calculate. cbv zeta. rewrite HV. apply showBlank_sameStore.
  - destruct (calculate_valid w HV) as (w1 & -> & Hs).
    destruct (saveData_sameStore w1 w Hs) as [_ ->].
    unfold saveData. apply (saveData_fold inputIds w).
Qed.

(** X14.  Recomputing on unchanged inputs changes nothing: after a second
    [calculate] the input fields, the store, the error, every output,
    every colour class and every visibility are as after the first. *)
Theorem recomputation_is_idempotent (w : World) :
  samePage (calculate (calculate w)) (calculate w).
Proof using Type.
  pose proof (calculate_inputValue w) as Hi.
  pose proof (readInputs_inputValue _ _ Hi) as Hr.
  unfold samePage. split; [apply calculate_inputValue|].
  split.
  { rewrite (calculate_localStorage (calculate w)), Hr.
    rewrite (calculate_localStorage w).
    destruct (invalid (parseInputs (readInputs w))); [reflexivity|].
    apply map_eq. intros i. unfold valueOf at 1. rewrite Hi.
    fold (valueOf w). rewrite !foldl_insert_lookup.
    by destruct (decide (i ∈ inputIds)). }
  destruct (invalid (parseInputs (readInputs w))) eqn:HV.
  - assert (HV' : invalid (parseInputs (readInputs (calculate w))) = true)
      by now rewrite Hr.
    rewrite (calculate_invalid _ HV'), (calculate_invalid _ HV).
    destruct (showBlank_page (showBlank w)) as (-> & -> & -> & -> & _).
    destruct (showBlank_page w) as (-> & -> & -> & -> & _).
    by rewrite !applyUpdates_twice.
  - assert (HV' : invalid (parseInputs (readInputs (calculate w))) = false)
      by now rewrite Hr.
    destruct (calculate_valid_page _ HV') as (-> & -> & -> & -> & _).
    rewrite Hr.
    destruct (calculate_valid_page _ HV) as (-> & -> & -> & -> & _).
    by rewrite !applyUpdates_twice.
Qed.

End Recomputation.

Lemma loadData_fold (ids : list string) (w : World) :
  let w' :=
    foldl (fun w id =>
             match localStorage w !! id with
             | Some savedValue => setValue id savedValue w
             | None => w
             end) w ids in
  localStorage w' = localStorage w
  /\ forall i,
       inputValue w' !! i
       = if decide (i ∈ ids) then
           match localStorage w !! i with
           | Some savedValue => Some savedValue
           | None => inputValue w !! i
           end
         else inputValue w !! i.
Proof.
  revert w. induction ids as [|a ids IH]; intros w; cbn [foldl].
  - split; [done|]. intros i.
    destruct (decide (i ∈ [])) as [Hi|]; [by apply elem_of_nil in Hi | done].
  - set (w1 := match localStorage w !! a with
               | Some savedValue => setValue a savedValue w
               | None => w
               end).
    assert (Hst : localStorage w1 = localStorage w)
      by (unfold w1; by destruct (localStorage w !! a)).
    assert (Hin : forall i,
               inputValue w1 !! i
               = if decide (i = a) then
                   match localStorage w !! a with
                   | Some savedValue => Some savedValue
                   | None => inputValue w !! a
                   end
                 else inputValue w !! i).
    { intros i. unfold w1. destruct (decide (i = a)) as [-> | Hne].
      - destruct (localStorage w !! a); [|done].
        cbn. by rewrite lookup_insert_eq.
      - destruct (localStorage w !! a); [|done].
        cbn. by rewrite lookup_insert_ne. }
    destruct (IH w1) as [-> IHin]. split; [exact Hst|].
    intros i. rewrite IHin, Hst, Hin.
    destruct (decide (i = a)) as [-> | Hne].
    + rewrite (decide_True (P := a ∈ a :: ids))
        by (apply elem_of_cons; by left).
      destruct (decide (a ∈ ids)); by destruct (localStorage w !! a).
    + destruct (decide (i ∈ ids)) as [Hi | Hi].
      * by rewrite decide_True by (apply elem_of_cons; by right).
      * rewrite decide_False; [done|].
        intros Hc. apply elem_of_cons in Hc. by destruct Hc.
Qed.

(** X15.  [loadData] writes into each of the eight input fields the text
    stored under its id, leaves a field with nothing stored (a first
    visit) as it is, touches no other field, and never writes the store. *)
Theorem loadData_restores_stored_fields (w : World) :
  (forall id savedValue,
     id ∈ inputIds -> localStorage w !! id = Some savedValue ->
     valueOf (loadData w) id = savedValue)
  /\ (forall id,
        id ∈ inputIds -> localStorage w !! id = None ->
        valueOf (loadData w) id = valueOf w id)
  /\ (forall id, id ∉ inputIds ->
        inputValue (loadData w) !! id = inputValue w !! id)
  /\ localStorage (loadData w) = localStorage w
  /\ setItemLog (loadData w) = setItemLog w.
Proof.
  destruct (loadData_fold inputIds w) as [Hst Hin]. fold (loadData w) in *.
  destruct (loadData_reads_only w) as [_ Hlog].
  repeat split; try assumption.
  - intros id savedValue Hid Hs. unfold valueOf.
    by rewrite Hin, decide_True, Hs.
  - intros id Hid Hs. unfold valueOf. by rewrite Hin, decide_True, Hs.
  - intros id Hid. by rewrite Hin, decide_False.
Qed.

Section Reload.

Context `{Host}.

(** X16.  Round trip through the store: once a valid input has been
    computed, a page that starts from the store it left reads back, after
    [loadData], the same eight parsed inputs, hence derives the same
    result, whatever its fields contained before. *)
Theorem saved_inputs_reload (w w2 : World) :
  invalid (parseInputs (readInputs w)) = false ->
  localStorage w2 = localStorage (calculate w) ->
  readInputs (loadData w2) = readInputs w
  /\ engine (readInputs (loadData w2)) = engine (readInputs w).
Proof using Type.
  intros HV Hst.
  assert (Hval : forall id, id ∈ inputIds ->
                   valueOf (loadData w2) id = valueOf w id).
  { intros id Hid.
    destruct (loadData_restores_stored_fields w2) as (Hload & _).
    apply Hload; [exact Hid|]. rewrite Hst.
    rewrite calculate_localStorage, HV, foldl_insert_lookup.
    by rewrite decide_True. }
  assert (E : readInputs (loadData w2) = readInputs w).
  { unfold readInputs.
    rewrite !Hval
      by (unfold inputIds;
          repeat first [apply list_elem_of_here | apply list_elem_of_further]).
    reflexivity. }
  split; [exact E | now rewrite E].
Qed.

End Reload.

Lemma reopened_store (st : gmap string string) :
  localStorage (reopened st) = st.
Proof. reflexivity. Qed.

Lemma saved_inputs_reload_sample :
  let w := samplePage "12000" in
  let w2 := reopened (localStorage (@calculate sampleHost w)) in
  @readInputs sampleHost (loadData w2) = @readInputs sampleHost w
  /\ engine (@readInputs sampleHost (loadData w2))
     = engine (@readInputs sampleHost w).
Proof.
  exact (@saved_inputs_reload sampleHost (samplePage "12000")
           (reopened (localStorage (@calculate sampleHost
                                      (samplePage "12000"))))
           sample_page_valid (reopened_store _)).
Defined.

(* ================================================================== *)
(** * Properties of debounce *)
(* ================================================================== *)

Section DebounceProperties.

Import Debounce.

Local Open Scope nat_scope.

Context {A : Type}.

Variable delay : nat.

Implicit Types (st : state A) (es : list (event A)).

Lemma run_snoc es (e : event A) :
  run A delay (es ++ [e]) = step A delay (run A delay es) e.
Proof. unfold run. by rewrite foldl_app. Qed.

Lemma clear_leaves_nothing st :
  onlyLatestPending A st ->
  timers A (clearTimeout A (timeoutId A st) st) = ∅.
Proof.
  intros Hinv. apply map_empty. intros i.
  destruct (timeoutId A st) as [i0|] eqn:E; cbn.
  - destruct (decide (i = i0)) as [-> | Hne].
    + by rewrite lookup_delete_eq.
    + rewrite lookup_delete_ne by done.
      destruct (timers A st !! i) as [x|] eqn:Ei; [|done].
      apply Hinv in Ei. congruence.
  - destruct (timers A st !! i) as [x|] eqn:Ei; [|done].
    apply Hinv in Ei. congruence.
Qed.

Lemma debounced_state (a : A) st :
  onlyLatestPending A st ->
  timers A (debounced A delay a st)
  = {[ nextId A st := (now A st + delay, a) ]}
  /\ timeoutId A (debounced A delay a st) = Some (nextId A st)
  /\ now A (debounced A delay a st) = now A st
  /\ calls A (debounced A delay a st) = calls A st.
Proof.
  intros Hinv. pose proof (clear_leaves_nothing st Hinv) as Hc.
  unfold debounced, setTimeout. cbv zeta.
  destruct (timeoutId A st) as [i0|]; cbn in *; rewrite Hc;
    by rewrite insert_empty.
Qed.

Lemma fire_timeoutId (id : nat) st :
  timeoutId A (fire A id st) = timeoutId A st.
Proof.
  unfold fire. destruct (timers A st !! id) as [[due args]|]; [|done].
  by destruct (due <=? now A st).
Qed.

Lemma fire_pending (id i : nat) (x : nat * A) st :
  timers A (fire A id st) !! i = Some x -> timers A st !! i = Some x.
Proof.
  unfold fire. destruct (timers A st !! id) as [[due args]|]; [|done].
  destruct (due <=? now A st); [|done].
  cbn. intros Hx. apply lookup_delete_Some in Hx. by destruct Hx.
Qed.

Lemma reachable_onlyLatestPending es : onlyLatestPending A (run A delay es).
Proof.
  induction es as [|e es IH] using rev_ind.
  - intros id x Hx. cbn in Hx. by rewrite lookup_empty in Hx.
  - rewrite run_snoc. destruct e as [a | d | id0]; cbn [step].
    + destruct (debounced_state a _ IH) as (Ht & Hid & _).
      intros id x Hx. rewrite Ht in Hx.
      apply lookup_singleton_Some in Hx. destruct Hx as [<- _]. exact Hid.
    + exact IH.
    + intros id x Hx. rewrite fire_timeoutId.
      apply fire_pending in Hx. by apply IH in Hx.
Qed.

(** X17.  However the calls of the debounced function, the passing of
    time and the firing of timers interleave, at most one timer is
    pending, and it is the one set by the latest call. *)
Theorem debounce_single_pending_timer es (id1 id2 : nat) (x1 x2 : nat * A) :
  timers A (run A delay es) !! id1 = Some x1 ->
  timers A (run A delay es) !! id2 = Some x2 ->
  id1 = id2 /\ timeoutId A (run A delay es) = Some id1.
Proof.
  intros H1 H2.
  apply reachable_onlyLatestPending in H1, H2. split; congruence.
Qed.

Lemma elapsed_snoc es (e : event A) :
  elapsed A (es ++ [e])
  = elapsed A es + match e with Tick _ d => d | _ => 0 end.
Proof.
  induction es as [|e0 es IH]; cbn.
  - destruct e; lia.
  - unfold elapsed in IH. rewrite IH. destruct e0, e; lia.
Qed.

(** X18.  After a call with arguments [a], as long as no other call
    comes, [func] runs at most once, with [a], and not before [delay]
    milliseconds have passed since that call; the call itself does not
    run [func]. *)
Theorem debounce_runs_once_after_quiet_period es1 (a : A) es2 :
  forallb (fun e => negb (isCall A e)) es2 = true ->
  let before := calls A (run A delay es1) in
  let after := calls A (run A delay (es1 ++ Call A a :: es2)) in
  calls A (run A delay (es1 ++ [Call A a])) = before
  /\ (after = before
      \/ (after = before ++ [a] /\ delay <= elapsed A es2
          /\ timers A (run A delay (es1 ++ Call A a :: es2)) = ∅)).
Proof.
  intros Hno. cbv zeta.
  pose proof (reachable_onlyLatestPending es1) as Hinv.
  destruct (debounced_state a _ Hinv) as (Ht & _ & Hnow & Hcalls).
  set (st1 := run A delay es1) in *.
  set (T := now A st1) in *. set (id := nextId A st1) in *.
  split; [by rewrite run_snoc|].
  assert (J : now A (run A delay (es1 ++ Call A a :: es2)) = T + elapsed A es2
              /\ ((timers A (run A delay (es1 ++ Call A a :: es2))
                   = {[ id := (T + delay, a) ]}
                   /\ calls A (run A delay (es1 ++ Call A a :: es2))
                      = calls A st1)
                  \/ (timers A (run A delay (es1 ++ Call A a :: es2)) = ∅
                      /\ calls A (run A delay (es1 ++ Call A a :: es2))
                         = calls A st1 ++ [a]
                      /\ delay <= elapsed A es2))).
  { induction es2 as [|e es2 IH] using rev_ind.
    - rewrite run_snoc. cbn [step]. fold st1.
      rewrite Hnow, Ht, Hcalls. cbn. split; [lia|]. by left.
    - rewrite forallb_app in Hno. apply andb_true_iff in Hno.
      destruct Hno as [Hno He]. specialize (IH Hno).
      destruct IH as [IHnow IH].
      replace (es1 ++ Call A a :: es2 ++ [e])
        with ((es1 ++ Call A a :: es2) ++ [e])
        by (by rewrite <- app_assoc).
      rewrite run_snoc, elapsed_snoc.
      remember (run A delay (es1 ++ Call A a :: es2)) as st eqn:Est.
      clear Est.
      destruct e as [a' | d | id']; cbn [step].
      + cbn in He. discriminate.
      + cbn [tick now timers calls]. split; [lia|].
        destruct IH as [IH | (? & ? & ?)]; [by left | right].
        repeat split; try done. lia.
      + unfold fire.
        destruct IH as [[IHt IHc] | (IHt & IHc & IHd)].
        * rewrite IHt. destruct (decide (id' = id)) as [-> | Hne].
          -- rewrite lookup_singleton_eq.
             destruct (T + delay <=? now A st) eqn:Hdue.
             ++ cbn [now timers calls]. split; [lia|]. right.
                apply Nat.leb_le in Hdue.
                rewrite delete_singleton_eq, IHc.
                repeat split; try done. lia.
             ++ split; [lia|]. left. by split.
          -- rewrite lookup_singleton_ne by done.
             split; [lia|]. left. by split.
        * rewrite IHt, lookup_empty. split; [lia|]. right.
          repeat split; try done. lia. }
  destruct J as [_ [[_ Hc] | (Ht' & Hc & Hd)]]; [by left | right].
  by repeat split.
Qed.

End DebounceProperties.

Lemma debounce_single_pending_timer_burst :
  2%nat = 2%nat
  /\ Debounce.timeoutId nat
       (Debounce.run nat 3
          [Debounce.Call nat 1%nat; Debounce.Tick nat 1;
           Debounce.Call nat 2%nat])
     = Some 2%nat.
Proof.
  exact (debounce_single_pending_timer 3
           [Debounce.Call nat 1%nat; Debounce.Tick nat 1;
            Debounce.Call nat 2%nat]
           2 2 (4, 2)%nat (4, 2)%nat eq_refl eq_refl).
Defined.

Lemma debounce_runs_once_after_quiet_period_burst :
  let es1 := [Debounce.Call nat 1%nat; Debounce.Tick nat 1] in
  let es2 := [Debounce.Tick nat 3; Debounce.Fire nat 2] in
  let before := Debounce.calls nat (Debounce.run nat 3 es1) in
  let after :=
    Debounce.calls nat
      (Debounce.run nat 3 (es1 ++ Debounce.Call nat 2%nat :: es2)) in
  Debounce.calls nat (Debounce.run nat 3 (es1 ++ [Debounce.Call nat 2%nat]))
  = before
  /\ (after = before
      \/ (after = before ++ [2%nat]
          /\ (3 <= Debounce.elapsed nat es2)%nat
          /\ Debounce.timers nat
               (Debounce.run nat 3 (es1 ++ Debounce.Call nat 2%nat :: es2))
             = ∅)).
Proof.
  exact (debounce_runs_once_after_quiet_period 3
           [Debounce.Call nat 1%nat; Debounce.Tick nat 1] 2%nat
           [Debounce.Tick nat 3; Debounce.Fire nat 2] eq_refl).
Defined.

Example debounce_burst_runs_last_call :
  Debounce.calls nat
    (Debounce.run nat 3
       [Debounce.Call nat 1%nat; Debounce.Tick nat 1;
        Debounce.Call nat 2%nat; Debounce.Fire nat 1; Debounce.Tick nat 2;
        Debounce.Fire nat 2; Debounce.Tick nat 1; Debounce.Fire nat 2;
        Debounce.Fire nat 2])
  = [2%nat].
Proof. vm_compute. reflexivity. Qed.

(* ================================================================== *)
(** * Properties of the simpler calculator *)
(* ================================================================== *)

Lemma max_zero_fin (x : Q) :
  exists y, JS.max (Fin 0) (Fin x) = Fin y /\ 0 <= y.
Proof.
  unfold JS.max. destruct (JS.lt (Fin 0) (Fin x)) eqn:E.
  - exists x. split; [reflexivity|]. apply Qltb_lt in E. lra.
  - exists 0. split; [reflexivity | lra].
Qed.

(** X19 (in exact arithmetic).  The two loan helpers are inverse to each
    other, for a positive rate and a positive whole term: the monthly
    payment of a loan of the borrowing capacity
    [calculateCapaciteEmprunt] returns, at the same rate and term, is the
    maximal payment [max(0, mensualiteMax - mensualitesActuelles +
    0.7 * loyer)] the capacity was computed from. *)
Theorem capacity_payment_round_trip (a b l t : Q) (n : Z) :
  0 < t -> (0 < n)%Z ->
  Variant.calculateMensualiteProjet
    (Simple.calculateCapaciteEmprunt (Fin a) (Fin b) (Fin l) (Fin t) (Int n))
    (Fin t) (Int n)
  =n= JS.max (Fin 0) (Fin a - Fin b + Fin l * Fin 0.7)%js.
Proof.
  intros Ht Hn. unfold Simple.calculateCapaciteEmprunt. cbv zeta.
  rewrite sub_fin, mul_fin, add_fin.
  destruct (max_zero_fin (a + - b + l * 0.7)) as (x & -> & Hx).
  change (Fin t / Fin 1200)%js with (Fin (t / 1200)).
  assert (Hr : 0 < t / 1200) by (apply Qlt_shift_div_l; lra).
  rewrite add_fin. simpl JS.negi. rewrite pow_fin by lra.
  rewrite sub_fin, div_fin by lra. rewrite mul_fin.
  rewrite variant_payment_fin by assumption. cbn [JS.num_eq].
  pose proof (discount_lt_1 _ n Hr Hn) as Hd.
  set (r := t / 1200) in *. set (d := (1 + r) ^ (- n)) in *.
  field. split; lra.
Qed.

Lemma capacity_payment_round_trip_sample :
  Variant.calculateMensualiteProjet
    (Simple.calculateCapaciteEmprunt
       (Fin 1050) (Fin 200) (Fin 800) (Fin 12) (Int 12))
    (Fin 12) (Int 12)
  =n= JS.max (Fin 0) (Fin 1050 - Fin 200 + Fin 800 * Fin 0.7)%js.
Proof.
  exact (capacity_payment_round_trip 1050 200 800 12 12 eq_refl eq_refl).
Defined.

Section SimpleCalculations.

Variable v : Simple.Locals.

Lemma mensualiteRestante_fin :
  JS.isNaN (Simple.salaireActuel v) || isFinite (Simple.salaireActuel v)
  = true ->
  JS.isNaN (Simple.mensualitesActuelles v)
  || isFinite (Simple.mensualitesActuelles v) = true ->
  exists q, Simple.mensualiteRestante v = Fin q /\ 0 <= q.
Proof using Type.
  intros Hs Hm. unfold Simple.mensualiteRestante, Simple.mensualiteMax,
    Simple.tauxEndettementAcceptable.
  assert (Es : exists s, Simple.orZero (Simple.salaireActuel v) = Fin s).
  { destruct (Simple.salaireActuel v) as [s| | |]; try discriminate.
    - cbn. destruct (Qeq_bool s 0); eauto.
    - cbn. eauto. }
  assert (Em : exists m, Simple.orZero (Simple.mensualitesActuelles v) = Fin m).
  { destruct (Simple.mensualitesActuelles v) as [m| | |]; try discriminate.
    - cbn. destruct (Qeq_bool m 0); eauto.
    - cbn. eauto. }
  destruct Es as (s & ->). destruct Em as (m & ->).
  rewrite mul_fin, sub_fin. apply max_zero_fin.
Qed.

(** X20.  Blank situation fields count as zero and the result is clamped:
    when the income and the current payments are each NaN or finite, the
    remaining own capacity [mensualiteRestante] is a number (not NaN) and
    passes the test [>= 0]. *)
Theorem remaining_capacity_never_negative :
  JS.isNaN (Simple.salaireActuel v) || isFinite (Simple.salaireActuel v)
  = true ->
  JS.isNaN (Simple.mensualitesActuelles v)
  || isFinite (Simple.mensualitesActuelles v) = true ->
  JS.isNaN (Simple.mensualiteRestante v) = false
  /\ (Simple.mensualiteRestante v >= Fin 0)%js = true.
Proof using Type.
  intros Hs Hm. destruct (mensualiteRestante_fin Hs Hm) as (q & -> & Hq).
  split; [reflexivity|]. now apply ge_fin.
Qed.

(** The divisor of the own debt ratio is at least 1 whatever the income
    field holds. *)
Lemma own_ratio_divisor (x : num) :
  (JS.max (Fin 1) (Simple.orZero x) >= Fin 1)%js = true
  /\ isZero (JS.max (Fin 1) (Simple.orZero x)) = false.
Proof.
  destruct x as [q| | |]; cbn; try (split; reflexivity).
  destruct (Qeq_bool q 0) eqn:E0; [split; reflexivity|].
  cbn. destruct (JS.Qltb 1 q) eqn:E; [|split; reflexivity].
  apply Qltb_lt in E. split.
  - apply Qle_bool_iff. lra.
  - apply fin_nonzero. lra.
Qed.

End SimpleCalculations.

Lemma remaining_capacity_never_negative_blank :
  let v :=
    {| Simple.prix := Fin 12000; Simple.loyer := Fin 800;
       Simple.tauxAnnuel := Fin 12; Simple.nbMensualites := Int 12;
       Simple.salaireActuel := NaN; Simple.mensualitesActuelles := Fin 200 |}
  in
  JS.isNaN (Simple.mensualiteRestante v) = false
  /\ (Simple.mensualiteRestante v >= Fin 0)%js = true.
Proof.
  exact (remaining_capacity_never_negative
           {| Simple.prix := Fin 12000; Simple.loyer := Fin 800;
              Simple.tauxAnnuel := Fin 12; Simple.nbMensualites := Int 12;
              Simple.salaireActuel := NaN;
              Simple.mensualitesActuelles := Fin 200 |}
           eq_refl eq_refl).
Defined.

(** A quotient by zero is never a finite number. *)
Lemma div_by_zero_not_finite (x : num) (s : Q) :
  s == 0 -> isFinite (x / Fin s)%js = false.
Proof.
  intros Hs. apply Qeq_bool_iff in Hs.
  destruct x as [a| | |]; cbn; rewrite ?Hs; try reflexivity.
  - unfold JS.signed_inf.
    destruct (JS.Qltb 0 a); [reflexivity|]. now destruct (JS.Qltb a 0).
  - now destruct (JS.Qltb s 0).
  - now destruct (JS.Qltb s 0).
Qed.

(** X21.  The own debt ratio [endettementPropreTaux] divides the payment
    by [max(1, salaireActuel || 0)], which passes the test [>= 1]
    whatever the income field holds, whereas the total debt ratio divides
    by the income itself: with an income of 0 and current payments that
    are a number, the situation data count as valid and the total ratio is
    not a finite number. *)
Theorem own_ratio_guarded_total_ratio_unguarded (v : Simple.Locals) :
  let d := JS.max (Fin 1) (Simple.orZero (Simple.salaireActuel v)) in
  Simple.endettementPropreTaux v = (Simple.mensualiteProjet v / d)%js
  /\ (d >= Fin 1)%js = true
  /\ (forall s,
        Simple.salaireActuel v = Fin s -> s == 0 ->
        JS.isNaN (Simple.mensualitesActuelles v) = false ->
        Simple.isSituationDataValid v = true
        /\ isFinite (Simple.endettementTotalTaux v) = false).
Proof.
  intros d. split; [reflexivity|]. split.
  - exact (proj1 (own_ratio_divisor (Simple.salaireActuel v))).
  - intros s Es Hs Hm. split.
    + unfold Simple.isSituationDataValid. now rewrite Es, Hm.
    + unfold Simple.endettementTotalTaux. rewrite Es.
      now apply div_by_zero_not_finite.
Qed.

Lemma own_ratio_guarded_total_ratio_unguarded_sample :
  let v :=
    {| Simple.prix := Fin 12000; Simple.loyer := Fin 800;
       Simple.tauxAnnuel := Fin 12; Simple.nbMensualites := Int 12;
       Simple.salaireActuel := Fin 0; Simple.mensualitesActuelles := Fin 200 |}
  in
  Simple.isSituationDataValid v = true
  /\ isFinite (Simple.endettementTotalTaux v) = false.
Proof.
  exact (proj2 (proj2 (own_ratio_guarded_total_ratio_unguarded
                         {| Simple.prix := Fin 12000; Simple.loyer := Fin 800;
                            Simple.tauxAnnuel := Fin 12;
                            Simple.nbMensualites := Int 12;
                            Simple.salaireActuel := Fin 0;
                            Simple.mensualitesActuelles := Fin 200 |}))
           0 eq_refl eq_refl eq_refl).
Defined.

Example total_ratio_infinite_at_zero_income :
  Simple.endettementTotalTaux
    {| Simple.prix := Fin 12000; Simple.loyer := Fin 800;
       Simple.tauxAnnuel := Fin 12; Simple.nbMensualites := Int 12;
       Simple.salaireActuel := Fin 0;
       Simple.mensualitesActuelles := Fin 200 |} = PInf.
Proof. vm_compute. reflexivity. Qed.

Lemma setDisplay_fields (key s : string) (w : World) :
  errorDisplay (setDisplay key s w) = errorDisplay w
  /\ textContent (setDisplay key s w) = textContent w
  /\ display (setDisplay key s w) = <[key := s]> (display w).
Proof. done. Qed.

Section SimplePage.

Context `{Simple.Host}.

(** X22.  On every input that passes its validation, [calculate] of the
    simpler calculator ends by an exception: the statement that sets the
    text of [rendementCible] reads [rendementObjectif] outside the block
    that declares it.  The outputs before it are written; the texts of
    [rendementCible] and [prixCible] never are. *)
Theorem simple_valid_cycle_throws (w : World) :
  Simple.invalid (Simple.readLocals w) = false ->
  let v := Simple.readLocals w in
  snd (Simple.calculate w)
  = Simple.Thrown "ReferenceError: rendementObjectif is not defined"
  /\ textContent (fst (Simple.calculate w)) !! "rendementCible"%string
     = textContent w !! "rendementCible"%string
  /\ textContent (fst (Simple.calculate w)) !! "prixCible"%string
     = textContent w !! "prixCible"%string
  /\ textContent (fst (Simple.calculate w)) !! "mensualiteProjet"%string
     = Some (Simple.currencyFormat (Simple.mensualiteProjet v))
  /\ textContent (fst (Simple.calculate w)) !! "rendementBrut"%string
     = Some (Simple.percent (Simple.rendementBrut v * Fin 100)%js 1)
  /\ errorDisplay (fst (Simple.calculate w)) = "none"%string
  /\ display (fst (Simple.calculate w)) !! "situationResults"%string
     = Some "block"%string.
Proof using Type.
  intros HV v. unfold Simple.calculate. cbv zeta. rewrite HV. fold v.
  cbn [fst snd]. split; [reflexivity|].
  unfold Simple.showResults, Simple.showSituation. cbv zeta.
  destruct (Simple.isSituationDataValid v); destruct w; read_setters;
    repeat split;
    repeat first [ rewrite lookup_insert_eq
                 | rewrite lookup_insert_ne by done ];
    reflexivity.
Qed.

Lemma simple_showBlank_page (w : World) :
  errorDisplay (Simple.showBlank w) = "block"%string
  /\ textContent (Simple.showBlank w)
     = applyUpdates (map (fun key => (key, "..."%string)) Simple.outputKeys)
         (textContent w)
  /\ display (Simple.showBlank w)
     = <["situationResults"%string := "block"%string]>
         (applyUpdates
            (map (fun key => (key, "none"%string)) Simple.containerKeys)
            (display w)).
Proof using Type.
  unfold Simple.showBlank. cbv zeta.
  match goal with
  | |- context [setDisplay ?k ?s (foldl ?f ?x ?l)] =>
      destruct (setDisplay_fields k s (foldl f x l)) as (-> & -> & ->)
  end.
  destruct (foldl_setDisplay "none" Simple.containerKeys
              (foldl (fun w key => setText key "..." w)
                 (setError "block" w) Simple.outputKeys))
    as (-> & -> & -> & _).
  destruct (foldl_setText "..." Simple.outputKeys (setError "block" w))
    as (-> & -> & -> & _).
  done.
Qed.

(** X23.  On an input that fails its validation, [calculate] of the
    simpler calculator returns normally: it shows the error, sets its ten
    outputs to [...], hides the four rental containers and, unlike the
    full calculator, leaves the situation container displayed. *)
Theorem simple_invalid_cycle_blanks (w : World) :
  Simple.invalid (Simple.readLocals w) = true ->
  snd (Simple.calculate w) = Simple.Returned
  /\ errorDisplay (fst (Simple.calculate w)) = "block"%string
  /\ (forall key, key ∈ Simple.outputKeys ->
        textContent (fst (Simple.calculate w)) !! key = Some "..."%string)
  /\ (forall key, key ∈ rentalContainerKeys ->
        display (fst (Simple.calculate w)) !! key = Some "none"%string)
  /\ display (fst (Simple.calculate w)) !! "situationResults"%string
     = Some "block"%string.
Proof using Type.
  intros HI. unfold Simple.calculate. cbv zeta. rewrite HI. cbn [fst snd].
  destruct (simple_showBlank_page w) as (-> & -> & ->).
  split; [reflexivity|]. split; [reflexivity|]. split; [|split].
  - intros key Hkey. rewrite applyUpdates_lookup, lastWrite_constant.
    by rewrite decide_True.
  - intros key Hkey.
    assert (Hne : "situationResults"%string <> key).
    { unfold rentalContainerKeys in Hkey. intros <-.
      repeat (apply elem_of_cons in Hkey; destruct Hkey as [Hkey | Hkey];
              [discriminate Hkey|]).
      by apply elem_of_nil in Hkey. }
    rewrite lookup_insert_ne by exact Hne.
    rewrite applyUpdates_lookup, lastWrite_constant.
    rewrite decide_True; [reflexivity|].
    unfold Simple.containerKeys, rentalContainerKeys in *.
    repeat (apply elem_of_cons in Hkey; destruct Hkey as [-> | Hkey]);
      try (by apply elem_of_nil in Hkey);
      repeat first [apply list_elem_of_here | apply list_elem_of_further].
  - by rewrite lookup_insert_eq.
Qed.

End SimplePage.

Lemma sample_simple_page_valid :
  Simple.invalid (@Simple.readLocals sampleSimpleHost
                    (sampleSimplePage "12000")) = false.
Proof. vm_compute. reflexivity. Qed.

Lemma sample_simple_page_invalid :
  Simple.invalid (@Simple.readLocals sampleSimpleHost (sampleSimplePage ""))
  = true.
Proof. vm_compute. reflexivity. Qed.

Lemma simple_valid_cycle_throws_sample :
  snd (@Simple.calculate sampleSimpleHost (sampleSimplePage "12000"))
  = Simple.Thrown "ReferenceError: rendementObjectif is not defined".
Proof.
  exact (proj1 (@simple_valid_cycle_throws sampleSimpleHost
                  (sampleSimplePage "12000") sample_simple_page_valid)).
Defined.

Lemma simple_invalid_cycle_blanks_sample :
  snd (@Simple.calculate sampleSimpleHost (sampleSimplePage ""))
  = Simple.Returned.
Proof.
  exact (proj1 (@simple_invalid_cycle_blanks sampleSimpleHost
                  (sampleSimplePage "") sample_simple_page_invalid)).
Defined.

Example sample_simple_page_outputs :
  textContent (fst (@Simple.calculate sampleSimpleHost
                      (sampleSimplePage "12000"))) !! "prixCible"%string
  = None
  /\ display (fst (@Simple.calculate sampleSimpleHost
                     (sampleSimplePage "12000"))) !! "locatifResults"%string
     = Some "block"%string.
Proof. vm_compute. split; reflexivity. Qed.
